(** * The vault link graph of mcp-obsidian: a shallow embedding of [GraphService]

    The development follows [GraphService] (link extraction, link
    resolution, graph construction and the graph queries) function by
    function.  Conventions of the embedding:

    - a JavaScript string is a list of characters ([jstring]); the
      characters are the ASCII ones, on which [toLowerCase] and [trim]
      act as ECMAScript says; characters above 127 take part in no
      case mapping and are no white space here;
    - [path] is Node's POSIX [path] module;
    - a [Set<string>] is the list of its members in insertion order, a
      [Map<string, V>] the list of its entries in insertion order;
    - counters are natural numbers, [depth] and [hubCount] are integers;
    - the vault on disk is a snapshot: a directory tree and a partial
      function from note paths to contents ([None] is a failed read). *)

From Stdlib Require Import List Bool Arith ZArith Lia Ascii Sorted Permutation.
From Stdlib Require String.
Import String.StringSyntax.
From Equations Require Import Equations.
Import ListNotations.

Set Warnings "-register-all".

(* ===================================================================== *)
(** ** JavaScript strings                                                 *)
(* ===================================================================== *)

Module Js.

Definition jstring := list ascii.

(** [str "..."] is the string literal. *)
Definition str (s : String.string) : jstring := String.list_ascii_of_string s.
Arguments str s%_string_scope.

Fixpoint streq (a b : jstring) : bool :=
  match a, b with
  | [], [] => true
  | x :: a', y :: b' => Ascii.eqb x y && streq a' b'
  | _, _ => false
  end.

Definition chr_in (c : ascii) (cs : list ascii) : bool :=
  existsb (Ascii.eqb c) cs.

(** [s.startsWith(p)] *)
Fixpoint startsWith (s p : jstring) : bool :=
  match p, s with
  | [], _ => true
  | x :: p', y :: s' => Ascii.eqb x y && startsWith s' p'
  | _ :: _, [] => false
  end.

(** [s.endsWith(p)] *)
Definition endsWith (s p : jstring) : bool := startsWith (rev s) (rev p).

(** [s.slice(n)] for [0 <= n]. *)
Definition sliceFrom (n : nat) (s : jstring) : jstring := skipn n s.

(** [s.slice(a, b)] and [s.substring(a, b)] for [0 <= a <= b]. *)
Definition slice (a b : nat) (s : jstring) : jstring := firstn (b - a) (skipn a s).

(** White space of [String.prototype.trim] in the ASCII range:
    TAB, LF, VT, FF, CR and SPACE.  On a text of ASCII characters
    ([isAscii]) [trim] below is [String.prototype.trim]; the other
    white space of ECMAScript (U+00A0, U+FEFF, U+2028, ...) lies
    outside ASCII and is not stripped here. *)
Definition isSpace (c : ascii) : bool :=
  let n := nat_of_ascii c in
  ((9 <=? n) && (n <=? 13)) || (n =? 32).

Fixpoint trimStart (s : jstring) : jstring :=
  match s with
  | c :: s' => if isSpace c then trimStart s' else s
  | [] => []
  end.

Definition trim (s : jstring) : jstring := rev (trimStart (rev (trimStart s))).

Definition lowerChar (c : ascii) : ascii :=
  let n := nat_of_ascii c in
  if (65 <=? n) && (n <=? 90) then ascii_of_nat (n + 32) else c.

(** [s.toLowerCase()] on a text of ASCII characters ([isAscii]): the
    letters A to Z are lowered.  The case mapping of the characters
    outside ASCII is not modelled. *)
Definition toLowerCase (s : jstring) : jstring := map lowerChar s.

Definition slash : ascii := "/"%char.

(** [s.includes('/')] *)
Definition includesSlash (s : jstring) : bool := chr_in slash s.

(** [s.lastIndexOf('/')], for a string that contains a slash. *)
Fixpoint lastIndexOfSlash (s : jstring) : nat :=
  match s with
  | [] => 0
  | c :: s' =>
      if includesSlash s' then S (lastIndexOfSlash s') else 0
  end.

(** A string is truthy when it is not empty. *)
Definition truthy (s : jstring) : bool :=
  match s with [] => false | _ => true end.

(** The text holds ASCII characters only (codes 0 to 127).  On such
    texts [trim] and [toLowerCase] are the functions of the code. *)
Definition isAscii (s : jstring) : bool :=
  forallb (fun c => nat_of_ascii c <? 128) s.

End Js.
Import Js.

(* ===================================================================== *)
(** ** Node's [path.basename] (POSIX)                                     *)
(* ===================================================================== *)

Module Path.

(** The scan of [basename(path)]: from the last character down, trailing
    slashes are skipped ([matchedSlash] still true), then characters are
    taken up to the next slash.  [acc] is [path.slice(start, end)]. *)
Fixpoint scanBase (rp : jstring) (matchedSlash : bool) (acc : jstring) : jstring :=
  match rp with
  | [] => acc
  | c :: rp' =>
      if Ascii.eqb c slash then
        if matchedSlash then scanBase rp' true acc else acc
      else scanBase rp' false (c :: acc)
  end.

Definition basename (path : jstring) : jstring := scanBase (rev path) true [].

(** The loop of [basename(path, suffix)].  [rp] holds the characters of
    [path] at the indices [i], [i-1], ..., [0]; the result is
    [(start, end, firstNonSlashEnd)] when the loop is left. *)
Fixpoint scanSuffix (rp : jstring) (i : Z) (suffix : jstring)
    (matchedSlash : bool) (extIdx end_ firstNonSlashEnd : Z) : Z * Z * Z :=
  match rp with
  | [] => (0, end_, firstNonSlashEnd)%Z
  | code :: rp' =>
      if Ascii.eqb code slash then
        if negb matchedSlash then ((i + 1)%Z, end_, firstNonSlashEnd)
        else scanSuffix rp' (i - 1) suffix matchedSlash extIdx end_ firstNonSlashEnd
      else
        let '(matchedSlash, firstNonSlashEnd) :=
          if (firstNonSlashEnd =? -1)%Z then (false, (i + 1)%Z)
          else (matchedSlash, firstNonSlashEnd) in
        if (extIdx >=? 0)%Z then
          if Ascii.eqb code (nth (Z.to_nat extIdx) suffix zero) then
            if (extIdx - 1 =? -1)%Z
            then scanSuffix rp' (i - 1) suffix matchedSlash (extIdx - 1) i firstNonSlashEnd
            else scanSuffix rp' (i - 1) suffix matchedSlash (extIdx - 1) end_ firstNonSlashEnd
          else scanSuffix rp' (i - 1) suffix matchedSlash (-1) firstNonSlashEnd firstNonSlashEnd
        else scanSuffix rp' (i - 1) suffix matchedSlash extIdx end_ firstNonSlashEnd
  end.

(** [basename(path, suffix)] *)
Definition basenameExt (path suffix : jstring) : jstring :=
  if (0 <? length suffix) && (length suffix <=? length path) then
    if streq suffix path then []
    else
      let n := Z.of_nat (length path) in
      let '(start, end_, firstNonSlashEnd) :=
        scanSuffix (rev path) (n - 1) suffix true
                   (Z.of_nat (length suffix) - 1) (-1) (-1) in
      let end_ :=
        if (start =? end_)%Z then firstNonSlashEnd
        else if (end_ =? -1)%Z then n else end_ in
      slice (Z.to_nat start) (Z.to_nat end_) path
  else basename path.

End Path.
Import Path.

(* ===================================================================== *)
(** ** The regular expressions of the link patterns                       *)
(* ===================================================================== *)

Module Regex.

(** The fragment of ECMAScript patterns the two link patterns are written
    in.  Repetition is greedy and backtracks. *)
Inductive regex : Type :=
| RChar (c : ascii)                 (* a literal character    *)
| RStarNot (ex : list ascii)        (* [^ex]*                 *)
| RPlusNot (ex : list ascii)        (* [^ex]+                 *)
| RSeq (r1 r2 : regex)              (* r1 r2                  *)
| ROpt (r : regex)                  (* (?:r)?                 *)
| RCap (i : nat) (r : regex).       (* capture group number i *)

Definition captures := list (nat * jstring).

Fixpoint capture (i : nat) (cs : captures) : option jstring :=
  match cs with
  | [] => None
  | (j, s) :: cs' => if i =? j then Some s else capture i cs'
  end.

Section Backtracking.
Variable A : Type.

(** [^ex]* followed by the continuation [k]: the longest run first. *)
Fixpoint starNot (ex : list ascii) (s : jstring) (k : jstring -> option A) : option A :=
  match s with
  | [] => k []
  | c :: s' =>
      if chr_in c ex then k s
      else match starNot ex s' k with
           | Some r => Some r
           | None => k s
           end
  end.

Fixpoint rmatch (r : regex) (s : jstring) (cs : captures)
    (k : jstring -> captures -> option A) : option A :=
  match r with
  | RChar c =>
      match s with
      | c' :: s' => if Ascii.eqb c c' then k s' cs else None
      | [] => None
      end
  | RStarNot ex => starNot ex s (fun s' => k s' cs)
  | RPlusNot ex =>
      match s with
      | c :: s' => if chr_in c ex then None else starNot ex s' (fun s'' => k s'' cs)
      | [] => None
      end
  | RSeq r1 r2 => rmatch r1 s cs (fun s' cs' => rmatch r2 s' cs' k)
  | ROpt r1 =>
      match rmatch r1 s cs k with
      | Some res => Some res
      | None => k s cs
      end
  | RCap i r1 =>
      rmatch r1 s cs
        (fun s' cs' => k s' ((i, firstn (length s - length s') s) :: cs'))
  end.
End Backtracking.
Arguments starNot {A} ex s k.
Arguments rmatch {A} r s cs k.

(** A match anchored at the head of [s]: the captures and what follows
    the match. *)
Definition matchHere (r : regex) (s : jstring) : option (captures * jstring) :=
  rmatch r s [] (fun rest cs => Some (cs, rest)).

(** The loop [while ((match = re.exec(content)) !== null)] of a pattern
    with the [g] flag.  [exec] looks for the leftmost match at or after
    [lastIndex] and leaves [lastIndex] just after it; [skip] is the
    distance from the head of [s] to [lastIndex]. *)
Fixpoint execAll (r : regex) (skip : nat) (s : jstring) : list captures :=
  match s with
  | [] => []
  | _ :: s' =>
      match skip with
      | S n => execAll r n s'
      | O =>
          match matchHere r s with
          | Some (cs, rest) => cs :: execAll r (length s - length rest - 1) s'
          | None => execAll r 0 s'
          end
      end
  end.

Fixpoint lit (s : jstring) (k : regex) : regex :=
  match s with
  | [] => k
  | c :: s' => RSeq (RChar c) (lit s' k)
  end.

End Regex.
Import Regex.

(** [WIKILINK_PATTERN], g flag:
    [[                 two opening brackets
    ([^\]|#]+)         group 1: one or more characters, none of ] | #
    (?:# [^\]|] star)? optionally # and characters, none of ] |
    (?:\| ([^\]] star))? optionally | and group 2: characters other than ]
    ]]                 two closing brackets *)
Definition WIKILINK_PATTERN : regex :=
  lit (str "[[")
   (RSeq (RCap 1 (RPlusNot (str "]|#")))
   (RSeq (ROpt (RSeq (RChar "#") (RStarNot (str "]|"))))
   (RSeq (ROpt (RSeq (RChar "|") (RCap 2 (RStarNot (str "]")))))
   (RSeq (RChar "]") (RChar "]"))))).

(** [MARKDOWN_LINK_PATTERN], g flag:
    [                  an opening bracket
    ([^\]] star)       group 1: characters other than ]
    ](                 closing bracket, opening parenthesis
    ([^)]+\.md)        group 2: one or more characters other than ),
                       then .md
    (?:# [^)] star)?   optionally # and characters other than )
    )                  a closing parenthesis *)
Definition MARKDOWN_LINK_PATTERN : regex :=
  RSeq (RChar "[")
   (RSeq (RCap 1 (RStarNot (str "]")))
   (lit (str "](")
   (RSeq (RCap 2 (RSeq (RPlusNot (str ")")) (lit (str ".m") (RChar "d"))))
   (RSeq (ROpt (RSeq (RChar "#") (RStarNot (str ")"))))
         (RChar ")"))))).

(* ===================================================================== *)
(** ** Types ([types.ts])                                                 *)
(* ===================================================================== *)

Record ExtractedLink := { target : jstring; alias : option jstring }.

Record GraphNode := {
  id : jstring;          (* Note path (e.g., "folder/note.md") *)
  label : jstring;       (* Note name without extension *)
  links : nat;           (* Total connections (in + out) *)
  outlinks : nat;        (* Links FROM this note *)
  backlinks : nat        (* Links TO this note *)
}.

Record GraphEdge := {
  from : jstring;               (* Source note path *)
  to : jstring;                 (* Target note path *)
  edgeLabel : option jstring    (* Link text/alias if present *)
}.

Record Graph := { nodes : list GraphNode; edges : list GraphEdge }.

(** An optional string that is present and not empty. *)
Definition optTruthy (o : option jstring) : bool :=
  match o with Some s => truthy s | None => false end.

(** [if (alias) { link.alias = alias; }]: the field is set only to a
    truthy value. *)
Definition setIfTruthy (o : option jstring) : option jstring :=
  if optTruthy o then o else None.

(* ===================================================================== *)
(** ** [extractLinks]                                                     *)
(* ===================================================================== *)

Definition md : jstring := str ".md".

(** Append [.md] if not present. *)
Definition withMd (s : jstring) : jstring :=
  if endsWith s md then s else s ++ md.

Definition wikilinkOf (cs : captures) : list ExtractedLink :=
  match capture 1 cs with
  | Some matchResult =>
      if truthy matchResult then
        let target := trim matchResult in
        let alias := option_map trim (capture 2 cs) in
        let normalizedTarget := withMd target in
        [ {| target := normalizedTarget; alias := setIfTruthy alias |} ]
      else []
  | None => []
  end.

Definition markdownLinkOf (cs : captures) : list ExtractedLink :=
  match capture 2 cs with
  | Some targetMatch =>
      if truthy targetMatch then
        let alias := option_map trim (capture 1 cs) in
        let target := trim targetMatch in
        let target := if startsWith target (str "./") then sliceFrom 2 target else target in
        [ {| target := target; alias := setIfTruthy alias |} ]
      else []
  | None => []
  end.

Definition extractLinks (content : jstring) : list ExtractedLink :=
  flat_map wikilinkOf (execAll WIKILINK_PATTERN 0 content)
  ++ flat_map markdownLinkOf (execAll MARKDOWN_LINK_PATTERN 0 content).

(* ===================================================================== *)
(** ** [Set<string>] and [Map<string, V>]                                 *)
(* ===================================================================== *)

Module JsSet.
Definition t := list jstring.
Definition has (s : t) (x : jstring) : bool := existsb (streq x) s.
Definition add (s : t) (x : jstring) : t := if has s x then s else s ++ [x].
(** [new Set(l)] *)
Definition ofList (l : list jstring) : t := fold_left add l [].
End JsSet.

Module JsMap.
Section WithValues.
Variable V : Type.
Definition t := list (jstring * V).

Fixpoint get (k : jstring) (m : t) : option V :=
  match m with
  | [] => None
  | (k', v) :: m' => if streq k k' then Some v else get k m'
  end.

(** [m.set(k, v)]: an existing key keeps its place. *)
Fixpoint set (k : jstring) (v : V) (m : t) : t :=
  match m with
  | [] => [(k, v)]
  | (k', v') :: m' => if streq k k' then (k', v) :: m' else (k', v') :: set k v m'
  end.

(** [const o = m.get(k); if (o) { ...mutate o... }] *)
Fixpoint update (k : jstring) (f : V -> V) (m : t) : t :=
  match m with
  | [] => []
  | (k', v) :: m' => if streq k k' then (k', f v) :: m' else (k', v) :: update k f m'
  end.

(** [Array.from(m.values())] *)
Definition values (m : t) : list V := map snd m.
End WithValues.
Arguments get {V} k m.
Arguments set {V} k v m.
Arguments update {V} k f m.
Arguments values {V} m.
End JsMap.

(* ===================================================================== *)
(** ** The vault and [getAllNotes]                                        *)
(* ===================================================================== *)

(** What [readdir(dir, { withFileTypes: true })] lists. *)
Inductive DirEntry : Type :=
| File (name : jstring)
| Directory (name : jstring) (entries : list DirEntry)
| Other (name : jstring).      (* neither isFile() nor isDirectory() *)

Definition entryName (e : DirEntry) : jstring :=
  match e with File n | Directory n _ | Other n => n end.

Record Vault := {
  root : list DirEntry;                 (* the tree under vaultPath     *)
  isAllowed : jstring -> bool;          (* pathFilter.isAllowed         *)
  readFile : jstring -> option jstring  (* content of vaultPath/<path>  *)
}.

Definition markdown : jstring := str ".markdown".

Fixpoint scanEntry (allowed : jstring -> bool) (relativePath : jstring)
    (entry : DirEntry) : list jstring :=
  let entryRelativePath :=
    if truthy relativePath then relativePath ++ str "/" ++ entryName entry
    else entryName entry in
  if negb (allowed entryRelativePath) then []
  else
    match entry with
    | Directory _ entries =>
        if negb (allowed (entryRelativePath ++ str "/test.md")) then []
        else flat_map (scanEntry allowed entryRelativePath) entries
    | File name =>
        if endsWith name md || endsWith name markdown then [entryRelativePath] else []
    | Other _ => []
    end.

Definition scanDirectory (allowed : jstring -> bool) (entries : list DirEntry)
    (relativePath : jstring) : list jstring :=
  flat_map (scanEntry allowed relativePath) entries.

Definition getAllNotes (v : Vault) : list jstring :=
  scanDirectory (isAllowed v) (root v) [].

(* ===================================================================== *)
(** ** [resolveLink]                                                      *)
(* ===================================================================== *)

(** The loop [for (const note of allNotes)]. *)
Fixpoint resolveScan (normalizedTarget lowerTarget : jstring) (notes : list jstring)
    : option jstring :=
  match notes with
  | [] => None
  | note :: rest =>
      if streq (toLowerCase note) lowerTarget then Some note
      else
        let noteBasename := toLowerCase (basename note) in
        let targetBasename := toLowerCase (basename normalizedTarget) in
        if streq noteBasename targetBasename then Some note
        else resolveScan normalizedTarget lowerTarget rest
  end.

Definition resolveLink (target : jstring) (allNotes : JsSet.t) (sourceDir : jstring)
    : option jstring :=
  let normalizedTarget := withMd target in
  if JsSet.has allNotes normalizedTarget then Some normalizedTarget
  else
    let withDir := sourceDir ++ str "/" ++ normalizedTarget in
    if truthy sourceDir && JsSet.has allNotes withDir then Some withDir
    else
      let lowerTarget := toLowerCase normalizedTarget in
      resolveScan normalizedTarget lowerTarget allNotes.

(* ===================================================================== *)
(** ** [getGraph]                                                         *)
(* ===================================================================== *)

(** [notePath.includes('/') ? notePath.substring(0, notePath.lastIndexOf('/')) : ''] *)
Definition sourceDirOf (notePath : jstring) : jstring :=
  if includesSlash notePath then slice 0 (lastIndexOfSlash notePath) notePath else [].

Definition initNode (notePath : jstring) : GraphNode :=
  {| id := notePath; label := basenameExt notePath md;
     links := 0; outlinks := 0; backlinks := 0 |}.

(** The edges of one note: the body of the loop over its links. *)
Definition edgeOf (noteSet : JsSet.t) (notePath sourceDir : jstring)
    (link : ExtractedLink) : list GraphEdge :=
  match resolveLink (target link) noteSet sourceDir with
  | Some resolvedTarget =>
      if truthy resolvedTarget && negb (streq resolvedTarget notePath) then
        [ {| from := notePath; to := resolvedTarget;
             edgeLabel := setIfTruthy (alias link) |} ]
      else []
  | None => []
  end.

(** One of the [processPromises]: the [try] block reads and scans the
    note, the [catch] block answers with no edges. *)
Definition processNote (v : Vault) (noteSet : JsSet.t) (notePath : jstring)
    : jstring * list GraphEdge :=
  let sourceDir := sourceDirOf notePath in
  match readFile v notePath with
  | Some content =>
      let links := extractLinks content in
      (notePath, flat_map (edgeOf noteSet notePath sourceDir) links)
  | None => (notePath, [])
  end.

Definition bumpOut (n : GraphNode) : GraphNode :=
  {| id := id n; label := label n; links := S (links n);
     outlinks := S (outlinks n); backlinks := backlinks n |}.

Definition bumpBack (n : GraphNode) : GraphNode :=
  {| id := id n; label := label n; links := S (links n);
     outlinks := outlinks n; backlinks := S (backlinks n) |}.

(** The body of the aggregation loop, for one edge. *)
Definition addEdge (st : JsMap.t GraphNode * list GraphEdge) (edge : GraphEdge)
    : JsMap.t GraphNode * list GraphEdge :=
  let (nodeMap, edges) := st in
  let edges := edges ++ [edge] in
  let nodeMap := JsMap.update (from edge) bumpOut nodeMap in
  let nodeMap := JsMap.update (to edge) bumpBack nodeMap in
  (nodeMap, edges).

Definition initNodes (notes : list jstring) : JsMap.t GraphNode :=
  fold_left (fun m notePath => JsMap.set notePath (initNode notePath) m) notes [].

Definition aggregate (results : list (jstring * list GraphEdge))
    (nodeMap : JsMap.t GraphNode) : JsMap.t GraphNode * list GraphEdge :=
  fold_left (fun st result => fold_left addEdge (snd result) st) results (nodeMap, []).

Definition getGraph (v : Vault) : Graph :=
  let notes := getAllNotes v in
  let noteSet := JsSet.ofList notes in
  let nodeMap := initNodes notes in
  let results := map (processNote v noteSet) notes in
  let (nodeMap, edges) := aggregate results nodeMap in
  {| nodes := JsMap.values nodeMap; edges := edges |}.

(* ===================================================================== *)
(** ** [getGraphStats]                                                    *)
(* ===================================================================== *)

Record Hub := { path : jstring; connections : nat }.

Record GraphStats := {
  totalNodes : nat;
  totalEdges : nat;
  orphans : list jstring;
  hubs : list Hub;
  unresolvedLinks : list jstring
}.

(** [sort((a, b) => b.links - a.links)]: a stable sort, most links
    first.  [sortByLinks] inserts the nodes from the last to the first,
    each before the nodes placed so far that have no more links. *)
Fixpoint insertByLinks (n : GraphNode) (sorted : list GraphNode) : list GraphNode :=
  match sorted with
  | [] => [n]
  | m :: rest =>
      if links m <=? links n then n :: sorted else m :: insertByLinks n rest
  end.

Definition sortByLinks (l : list GraphNode) : list GraphNode :=
  fold_right insertByLinks [] l.

(** [a.slice(0, end)] *)
Definition sliceTo {A} (end_ : Z) (a : list A) : list A :=
  let len := Z.of_nat (length a) in
  let k := if (end_ <? 0)%Z then Z.max (len + end_) 0 else Z.min end_ len in
  firstn (Z.to_nat k) a.

(** [s.replace(/\.md$/, '')] *)
Definition stripMd (s : jstring) : jstring :=
  if endsWith s md then firstn (length s - 3) s else s.

(** [if (!unresolvedLinks.includes(linkName)) unresolvedLinks.push(linkName)] *)
Definition pushNew (l : list jstring) (x : jstring) : list jstring :=
  if existsb (streq x) l then l else l ++ [x].

Definition scanUnresolved (noteSet : JsSet.t) (sourceDir : jstring)
    (unresolved : list jstring) (link : ExtractedLink) : list jstring :=
  match resolveLink (target link) noteSet sourceDir with
  | Some resolved =>
      if truthy resolved then unresolved
      else pushNew unresolved (stripMd (target link))
  | None => pushNew unresolved (stripMd (target link))
  end.

Definition getGraphStats (v : Vault) (hubCount : option Z) : GraphStats :=
  let hubCount := match hubCount with Some n => n | None => 10%Z end in
  let graph := getGraph v in
  let noteSet := JsSet.ofList (map id (nodes graph)) in
  let orphans := map id (filter (fun node => links node =? 0) (nodes graph)) in
  let hubs :=
    map (fun node => {| path := id node; connections := links node |})
        (sliceTo hubCount (sortByLinks (nodes graph))) in
  let notes := getAllNotes v in
  let unresolvedLinks :=
    fold_left
      (fun unresolved notePath =>
         let sourceDir := sourceDirOf notePath in
         match readFile v notePath with
         | Some content =>
             fold_left (scanUnresolved noteSet sourceDir) (extractLinks content) unresolved
         | None => unresolved
         end)
      notes [] in
  {| totalNodes := length (nodes graph);
     totalEdges := length (edges graph);
     orphans := orphans;
     hubs := hubs;
     unresolvedLinks := unresolvedLinks |}.

(* ===================================================================== *)
(** ** [getBacklinks] and [getOutlinks]                                   *)
(* ===================================================================== *)

Record Backlink := { blFrom : jstring; context : option jstring }.
Record BacklinksResult := { blPath : jstring; backlinksOf : list Backlink }.

Definition isBacklinkTo (normalizedPath : jstring) (edge : GraphEdge) : bool :=
  streq (to edge) normalizedPath || endsWith (to edge) (str "/" ++ normalizedPath).

Definition getBacklinks (v : Vault) (path : jstring) : BacklinksResult :=
  let graph := getGraph v in
  let normalizedPath := withMd path in
  let backlinks :=
    map (fun edge => {| blFrom := from edge; context := setIfTruthy (edgeLabel edge) |})
        (filter (isBacklinkTo normalizedPath) (edges graph)) in
  {| blPath := normalizedPath; backlinksOf := backlinks |}.

Record Outlink := { olTo : jstring; resolved : bool; olAlias : option jstring }.
Record OutlinksResult := { olPath : jstring; outlinksOf : list Outlink }.

(** [a.find(p)] *)
Definition findFirst {A} (p : A -> bool) (a : list A) : option A := find p a.

Definition getOutlinks (v : Vault) (path : jstring) : OutlinksResult :=
  let notes := getAllNotes v in
  let noteSet := JsSet.ofList notes in
  let normalizedPath := withMd path in
  let actualPath :=
    if JsSet.has noteSet normalizedPath then normalizedPath
    else
      match findFirst (fun note => endsWith note normalizedPath
                         || streq (toLowerCase note) (toLowerCase normalizedPath)) notes with
      | Some note => note
      | None => normalizedPath
      end in
  let sourceDir := sourceDirOf actualPath in
  match readFile v actualPath with
  | Some content =>
      let links := extractLinks content in
      let outlinks :=
        map (fun link =>
               let resolved := resolveLink (target link) noteSet sourceDir in
               {| olTo := match resolved with
                          | Some r => if truthy r then r else target link
                          | None => target link
                          end;
                  resolved := match resolved with Some _ => true | None => false end;
                  olAlias := setIfTruthy (alias link) |})
            links in
      {| olPath := actualPath; outlinksOf := outlinks |}
  | None => {| olPath := actualPath; outlinksOf := [] |}
  end.

(* ===================================================================== *)
(** ** [getLocalGraph]                                                    *)
(* ===================================================================== *)

Definition BfsState : Type := JsSet.t * list (jstring * Z).

(** The body of [for (const edge of fullGraph.edges)]. *)
Definition visitEdge (id_ : jstring) (currentDepth : Z) (st : BfsState)
    (edge : GraphEdge) : BfsState :=
  let (includedNodes, queue) := st in
  let '(includedNodes, queue) :=
    if streq (from edge) id_ && negb (JsSet.has includedNodes (to edge)) then
      (JsSet.add includedNodes (to edge), queue ++ [(to edge, (currentDepth + 1)%Z)])
    else (includedNodes, queue) in
  if streq (to edge) id_ && negb (JsSet.has includedNodes (from edge)) then
    (JsSet.add includedNodes (from edge), queue ++ [(from edge, (currentDepth + 1)%Z)])
  else (includedNodes, queue).

Definition endpoints (es : list GraphEdge) : list jstring :=
  flat_map (fun e => [from e; to e]) es.

(** What the loop still has to do: the queued entries and the nodes
    that can still be discovered. *)
Definition bfsMeasure (es : list GraphEdge) (st : BfsState) : nat :=
  length (snd st)
  + length (filter (fun x => negb (JsSet.has (fst st) x)) (endpoints es)).

Lemma has_app (s : JsSet.t) (x y : jstring) :
  JsSet.has (s ++ [y]) x = JsSet.has s x || streq x y.
Proof.
  unfold JsSet.has. rewrite existsb_app. simpl. now rewrite orb_false_r.
Qed.

Lemma streq_refl (a : jstring) : streq a a = true.
Proof.
  induction a as [|c a IH]; simpl; [reflexivity|].
  now rewrite Ascii.eqb_refl, IH.
Qed.

Lemma streq_eq (a b : jstring) : streq a b = true <-> a = b.
Proof.
  split; [|intros ->; apply streq_refl].
  revert b; induction a as [|c a IH]; intros [|d b]; simpl; try congruence.
  intros H. apply andb_true_iff in H as [H1 H2].
  apply Ascii.eqb_eq in H1. apply IH in H2. congruence.
Qed.

(** Adding a node that is an endpoint and was not included leaves fewer
    nodes to discover. *)
Lemma unseen_add (l : list jstring) (inc : JsSet.t) (x : jstring) :
  In x l -> JsSet.has inc x = false ->
  length (filter (fun y => negb (JsSet.has (inc ++ [x]) y)) l)
  < length (filter (fun y => negb (JsSet.has inc y)) l).
Proof.
  intros Hin Hx. induction l as [|a l IH]; [contradiction|].
  assert (Hle : forall l',
    length (filter (fun y => negb (JsSet.has (inc ++ [x]) y)) l')
    <= length (filter (fun y => negb (JsSet.has inc y)) l')).
  { induction l' as [|b l' IH']; simpl; [lia|].
    rewrite has_app. destruct (JsSet.has inc b); simpl; [exact IH'|].
    destruct (streq b x); simpl; lia. }
  simpl. rewrite has_app. destruct Hin as [->|Hin].
  - rewrite Hx, streq_refl. simpl. specialize (Hle l). lia.
  - specialize (IH Hin). destruct (JsSet.has inc a); simpl; [exact IH|].
    destruct (streq a x); simpl; lia.
Qed.

(** One of the two tests of the loop body: [node] is discovered from the
    dequeued node when the edge touches it ([hit]) and [node] is new. *)
Definition discover (hit : bool) (node : jstring) (d : Z) (st : BfsState) : BfsState :=
  if hit && negb (JsSet.has (fst st) node)
  then (fst st ++ [node], snd st ++ [(node, (d + 1)%Z)])
  else st.

Lemma visitEdge_discover (id_ : jstring) (d : Z) (st : BfsState) (e : GraphEdge) :
  visitEdge id_ d st e
  = discover (streq (to e) id_) (from e) d (discover (streq (from e) id_) (to e) d st).
Proof.
  destruct st as [inc q]. unfold visitEdge, discover, JsSet.add. simpl.
  destruct (streq (from e) id_); simpl.
  - destruct (JsSet.has inc (to e)) eqn:E1; simpl.
    + destruct (streq (to e) id_); simpl; [|reflexivity].
      now destruct (JsSet.has inc (from e)).
    + destruct (streq (to e) id_); simpl; [|reflexivity].
      now destruct (JsSet.has (inc ++ [to e]) (from e)).
  - destruct (streq (to e) id_); simpl; [|reflexivity].
    now destruct (JsSet.has inc (from e)).
Qed.

Lemma discover_measure (all : list GraphEdge) (hit : bool) (x : jstring) (d : Z)
    (st : BfsState) :
  In x (endpoints all) -> bfsMeasure all (discover hit x d st) <= bfsMeasure all st.
Proof.
  intros Hx. unfold discover.
  destruct (hit && negb (JsSet.has (fst st) x)) eqn:E; [|lia].
  apply andb_true_iff in E as [_ E]. apply negb_true_iff in E.
  pose proof (unseen_add _ _ _ Hx E) as L.
  unfold bfsMeasure. simpl fst; simpl snd. rewrite length_app. simpl length. lia.
Qed.

Lemma visitEdge_measure (all : list GraphEdge) (id_ : jstring) (d : Z)
    (e : GraphEdge) (st : BfsState) :
  In e all -> bfsMeasure all (visitEdge id_ d st e) <= bfsMeasure all st.
Proof.
  intros He. rewrite visitEdge_discover.
  assert (Hf : In (from e) (endpoints all))
    by (apply in_flat_map; exists e; simpl; auto).
  assert (Ht : In (to e) (endpoints all))
    by (apply in_flat_map; exists e; simpl; auto).
  etransitivity; [apply discover_measure, Hf|apply discover_measure, Ht].
Qed.

Lemma visitEdges_measure (all es : list GraphEdge) (id_ : jstring) (d : Z)
    (st : BfsState) :
  incl es all ->
  bfsMeasure all (fold_left (visitEdge id_ d) es st) <= bfsMeasure all st.
Proof.
  revert st. induction es as [|e es IH]; intros st Hi; simpl; [lia|].
  etransitivity; [apply IH; intros x Hx; apply Hi; now right|].
  apply visitEdge_measure. apply Hi. now left.
Qed.

(** The loop [while (queue.length > 0)]. *)
Equations? bfs (depth : Z) (es : list GraphEdge) (st : BfsState) : JsSet.t
    by wf (bfsMeasure es st) lt :=
  bfs depth es (includedNodes, []) := includedNodes;
  bfs depth es (includedNodes, (id_, currentDepth) :: queue) :=
    if (currentDepth >=? depth)%Z then bfs depth es (includedNodes, queue)
    else bfs depth es (fold_left (visitEdge id_ currentDepth) es (includedNodes, queue)).
Proof.
  pose proof (visitEdges_measure es es id_ currentDepth (includedNodes, queue)
                  (incl_refl _)) as H.
    unfold bfsMeasure in *. simpl in *. lia.
Qed.

(** The search for the center node. *)
Definition findCenter (fullGraph : Graph) (normalizedPath : jstring) : option GraphNode :=
  match findFirst (fun n => streq (id n) normalizedPath) (nodes fullGraph) with
  | Some n => Some n
  | None =>
      findFirst (fun n => endsWith (id n) normalizedPath
                   || streq (toLowerCase (id n)) (toLowerCase normalizedPath))
                (nodes fullGraph)
  end.

Definition getLocalGraph (v : Vault) (path : jstring) (depth : option Z) : Graph :=
  let depth := match depth with Some d => d | None => 1%Z end in
  let fullGraph := getGraph v in
  let normalizedPath := withMd path in
  match findCenter fullGraph normalizedPath with
  | None => {| nodes := []; edges := [] |}
  | Some centerNode =>
      let includedNodes :=
        bfs depth (edges fullGraph) ([id centerNode], [(id centerNode, 0%Z)]) in
      let localNodes :=
        filter (fun n => JsSet.has includedNodes (id n)) (nodes fullGraph) in
      let localEdges :=
        filter (fun e => JsSet.has includedNodes (from e) && JsSet.has includedNodes (to e))
               (edges fullGraph) in
      {| nodes := localNodes; edges := localEdges |}
  end.

(* ===================================================================== *)
(** ** Vaults with a flat top directory                                   *)
(* ===================================================================== *)

(** A file of the vault's top directory and its content. *)
Definition note (name content : String.string) : jstring * jstring :=
  (str name, str content).
Arguments note (name content)%_string_scope.

Definition lookupFile (files : list (jstring * jstring)) (p : jstring) : option jstring :=
  option_map snd (find (fun f => streq (fst f) p) files).

(** The vault whose top directory holds [files], every path allowed. *)
Definition vaultOf (files : list (jstring * jstring)) : Vault :=
  {| root := map (fun f => File (fst f)) files;
     isAllowed := fun _ => true;
     readFile := lookupFile files |}.

(* ===================================================================== *)
(** ** Counting edges, walks and distances                                *)
(* ===================================================================== *)

(** What the aggregation loop does to the node of key [k]. *)
Definition tallyStep (k : jstring) (n : GraphNode) (e : GraphEdge) : GraphNode :=
  let n := if streq (from e) k then bumpOut n else n in
  if streq (to e) k then bumpBack n else n.

Definition tally (k : jstring) (es : list GraphEdge) (n : GraphNode) : GraphNode :=
  fold_left (tallyStep k) es n.

Definition countFrom (k : jstring) (es : list GraphEdge) : nat :=
  length (filter (fun e => streq (from e) k) es).

Definition countTo (k : jstring) (es : list GraphEdge) : nat :=
  length (filter (fun e => streq (to e) k) es).

(** The accepted edges, in the words of the specification: for every
    listed note that can be read, in the order of the listing, and for
    every raw link of the note, in the order of extraction, the link
    gives an edge from the note to its resolved target, with its alias,
    unless it does not resolve or resolves to the note itself. *)
Definition acceptedLink (known : JsSet.t) (notePath : jstring) (link : ExtractedLink)
    : list GraphEdge :=
  match resolveLink (target link) known (sourceDirOf notePath) with
  | Some resolvedTarget =>
      if streq resolvedTarget notePath then []
      else [ {| from := notePath; to := resolvedTarget; edgeLabel := alias link |} ]
  | None => []
  end.

Definition acceptedEdges (v : Vault) : list GraphEdge :=
  flat_map
    (fun notePath =>
       match readFile v notePath with
       | Some content =>
           flat_map (acceptedLink (JsSet.ofList (getAllNotes v)) notePath)
                    (extractLinks content)
       | None => []
       end)
    (getAllNotes v).

(** The edges every note contributes, in enumeration order. *)
Definition allEdges (v : Vault) (notes : list jstring) : list GraphEdge :=
  flat_map (fun p => snd (processNote v (JsSet.ofList notes) p)) notes.

(** Two nodes are adjacent when an edge joins them, in either
    direction. *)
Definition adjacent (es : list GraphEdge) (u w : jstring) : Prop :=
  exists e, In e es /\ ((from e = u /\ to e = w) \/ (to e = u /\ from e = w)).

(** [walk es c n w]: [w] is reached from [c] over [n] edges, each taken
    in either direction. *)
Inductive walk (es : list GraphEdge) (c : jstring) : nat -> jstring -> Prop :=
| walk_here : walk es c 0 c
| walk_step (n : nat) (u w : jstring) :
    walk es c n u -> adjacent es u w -> walk es c (S n) w.

(** The undirected distance from [c] to [w] is at most [d]. *)
Definition withinHops (es : list GraphEdge) (c : jstring) (d : Z) (w : jstring) : Prop :=
  exists n, (Z.of_nat n <= d)%Z /\ walk es c n w.

(* ===================================================================== *)
(** ** The vaults of the examples                                         *)
(* ===================================================================== *)

(** The chain of the example: [A] links to [B], [B] links to [C]. *)
Definition chainABC : Vault :=
  vaultOf [note "A.md" "[[B]]"; note "B.md" "[[C]]"; note "C.md" ""].

(** The example of the backlinks query: [a.md] links to [x.md] and to
    [folder/x.md]. *)
Definition nestedX : Vault :=
  {| root := [File (str "a.md"); File (str "x.md");
              Directory (str "folder") [File (str "x.md")]];
     isAllowed := fun _ => true;
     readFile := lookupFile [note "a.md" "[[x]] and [see](folder/x.md)"] |}.

(** A vault in which [B.md] is listed but cannot be read. *)
Definition unreadableB : Vault :=
  {| root := [File (str "A.md"); File (str "B.md")];
     isAllowed := fun _ => true;
     readFile := lookupFile [note "A.md" "[[B]]"] |}.

(** A vault with the notes [b/x.md] and [A/X.md], enumerated in this
    order, and a note that links to [a/x]. *)
Definition twoX : Vault :=
  {| root := [Directory (str "b") [File (str "x.md")];
              Directory (str "A") [File (str "X.md")];
              File (str "n.md")];
     isAllowed := fun _ => true;
     readFile := lookupFile [note "n.md" "[[a/x]]"] |}.


(** A vault with a note of each extension. *)
Definition docsVault : Vault :=
  {| root := [Directory (str "docs") [File (str "foo.markdown"); File (str "bar.md")]];
     isAllowed := fun _ => true;
     readFile := fun _ => Some [] |}.

(* ===================================================================== *)
(** ** What a pattern matches                                             *)
(* ===================================================================== *)

(** [matches r s cs s' cs']: the pattern [r] matches a prefix of [s],
    [s'] is what follows the match, and the captures go from [cs] to
    [cs'].  Of the ways a pattern can match, the backtracking matcher
    picks one. *)
Fixpoint matches (r : regex) (s : jstring) (cs : captures) (s' : jstring)
    (cs' : captures) : Prop :=
  match r with
  | RChar c => s = c :: s' /\ cs' = cs
  | RStarNot ex =>
      exists p, s = p ++ s' /\ Forall (fun c => chr_in c ex = false) p /\ cs' = cs
  | RPlusNot ex =>
      exists p, s = p ++ s' /\ p <> [] /\ Forall (fun c => chr_in c ex = false) p
                /\ cs' = cs
  | RSeq r1 r2 =>
      exists s1 cs1, matches r1 s cs s1 cs1 /\ matches r2 s1 cs1 s' cs'
  | ROpt r1 => matches r1 s cs s' cs' \/ (s' = s /\ cs' = cs)
  | RCap i r1 =>
      exists cs1, matches r1 s cs s' cs1
                  /\ cs' = (i, firstn (length s - length s') s) :: cs1
  end.

(* ===================================================================== *)
(** * Properties                                                          *)
(* ===================================================================== *)

(** ** Strings *)

Lemma startsWith_spec (s p : jstring) :
  startsWith s p = true <-> exists r, s = p ++ r.
Proof.
  revert s; induction p as [|x p IH]; intros s.
  - split; [intros _; now exists s|now destruct s].
  - destruct s as [|y s]; simpl; [split; [discriminate|intros [r H]; discriminate]|].
    rewrite andb_true_iff, Ascii.eqb_eq, IH. split.
    + intros [-> [r ->]]. now exists r.
    + intros [r H]. injection H as -> ->. split; [reflexivity|now exists r].
Qed.

Lemma endsWith_spec (s p : jstring) :
  endsWith s p = true <-> exists r, s = r ++ p.
Proof.
  unfold endsWith. rewrite startsWith_spec. split; intros [r H].
  - exists (rev r). rewrite <- (rev_involutive s), H, rev_app_distr.
    now rewrite rev_involutive.
  - exists (rev r). now rewrite H, rev_app_distr.
Qed.

Lemma endsWith_app (r p : jstring) : endsWith (r ++ p) p = true.
Proof. apply endsWith_spec. now exists r. Qed.

(** A string that ends with [p ++ [c]] has [c] as its last character. *)
Lemma endsWith_last (s p : jstring) (c : ascii) :
  endsWith s (p ++ [c]) = true -> exists r, s = r ++ [c].
Proof.
  intros H. apply endsWith_spec in H as [r ->].
  exists (r ++ p). now rewrite app_assoc.
Qed.

Lemma withMd_spec (t : jstring) : exists r, withMd t = r ++ md.
Proof.
  unfold withMd. destruct (endsWith t md) eqn:E.
  - now apply endsWith_spec.
  - now exists t.
Qed.

Lemma withMd_endsWith (t : jstring) : endsWith (withMd t) md = true.
Proof. apply endsWith_spec, withMd_spec. Qed.

Lemma withMd_last (t : jstring) : exists r, withMd t = r ++ [ "d"%char ].
Proof.
  destruct (withMd_spec t) as [r ->]. exists (r ++ str ".m").
  now rewrite <- app_assoc.
Qed.

Lemma toLowerCase_app (a b : jstring) :
  toLowerCase (a ++ b) = toLowerCase a ++ toLowerCase b.
Proof. apply map_app. Qed.

Lemma lowerChar_slash (c : ascii) :
  Ascii.eqb (lowerChar c) slash = Ascii.eqb c slash.
Proof.
  destruct c as [[] [] [] [] [] [] [] []]; reflexivity.
Qed.

(** ** Sets and maps *)

Lemma has_In (s : JsSet.t) (x : jstring) : JsSet.has s x = true <-> In x s.
Proof.
  unfold JsSet.has. rewrite existsb_exists. split.
  - intros [y [Hy E]]. apply streq_eq in E. now subst.
  - intros H. exists x. split; [exact H|apply streq_refl].
Qed.

Lemma has_false (s : JsSet.t) (x : jstring) : JsSet.has s x = false <-> ~ In x s.
Proof.
  rewrite <- has_In. destruct (JsSet.has s x); split; congruence.
Qed.

Lemma add_In (s : JsSet.t) (x y : jstring) :
  In y (JsSet.add s x) <-> In y s \/ y = x.
Proof.
  unfold JsSet.add. destruct (JsSet.has s x) eqn:E.
  - apply has_In in E. split; [tauto|]. intros [H| ->]; assumption.
  - rewrite in_app_iff. simpl. intuition congruence.
Qed.

Lemma add_NoDup (s : JsSet.t) (x : jstring) : NoDup s -> NoDup (JsSet.add s x).
Proof.
  intros H. unfold JsSet.add. destruct (JsSet.has s x) eqn:E; [exact H|].
  apply has_false in E. apply NoDup_rev in H. rewrite <- (rev_involutive (s ++ [x])).
  apply NoDup_rev. rewrite rev_app_distr. simpl. constructor; [|exact H].
  now rewrite <- in_rev.
Qed.

Lemma fold_add_In (l : list jstring) (s : JsSet.t) (y : jstring) :
  In y (fold_left JsSet.add l s) <-> In y s \/ In y l.
Proof.
  revert s; induction l as [|x l IH]; intros s; simpl; [tauto|].
  rewrite IH, add_In. intuition (subst; auto).
Qed.

Lemma fold_add_NoDup (l : list jstring) (s : JsSet.t) :
  NoDup s -> NoDup (fold_left JsSet.add l s).
Proof.
  revert s; induction l as [|x l IH]; intros s H; simpl; [exact H|].
  apply IH, add_NoDup, H.
Qed.

Lemma ofList_In (l : list jstring) (y : jstring) : In y (JsSet.ofList l) <-> In y l.
Proof. unfold JsSet.ofList. rewrite fold_add_In. simpl. tauto. Qed.

Lemma ofList_NoDup (l : list jstring) : NoDup (JsSet.ofList l).
Proof. apply fold_add_NoDup. constructor. Qed.

(** A list without repetition is the set made of it. *)
Lemma fold_add_fresh (l : list jstring) (s : JsSet.t) :
  NoDup (s ++ l) -> fold_left JsSet.add l s = s ++ l.
Proof.
  revert s; induction l as [|x l IH]; intros s H; simpl; [now rewrite app_nil_r|].
  assert (E : JsSet.has s x = false).
  { apply has_false. intros Hin. apply NoDup_remove_2 in H. apply H.
    apply in_or_app. now left. }
  unfold JsSet.add at 2. rewrite E. rewrite IH; rewrite <- app_assoc; [reflexivity|exact H].
Qed.

Lemma ofList_NoDup_id (l : list jstring) : NoDup l -> JsSet.ofList l = l.
Proof. intros H. unfold JsSet.ofList. now rewrite fold_add_fresh. Qed.

Definition entryOf (k : jstring) : jstring * GraphNode := (k, initNode k).

Lemma set_entryOf (k : jstring) (ks : list jstring) :
  JsMap.set k (initNode k) (map entryOf ks) = map entryOf (JsSet.add ks k).
Proof.
  unfold JsSet.add. induction ks as [|k' ks IH]; simpl; [reflexivity|].
  destruct (streq k k') eqn:E; simpl.
  - apply streq_eq in E. now subst.
  - rewrite IH. now destruct (JsSet.has ks k).
Qed.

Lemma initNodes_spec (notes : list jstring) :
  initNodes notes = map entryOf (JsSet.ofList notes).
Proof.
  unfold initNodes, JsSet.ofList.
  change (@nil (jstring * GraphNode)) with (map entryOf []).
  generalize (@nil jstring) as ks.
  induction notes as [|p notes IH]; intros ks; simpl; [reflexivity|].
  now rewrite set_entryOf, IH.
Qed.

Lemma update_map {V : Type} (k : jstring) (f : V -> V) (m : JsMap.t V) :
  NoDup (map fst m) ->
  JsMap.update k f m
  = map (fun kv => (fst kv, if streq k (fst kv) then f (snd kv) else snd kv)) m.
Proof.
  induction m as [|[k' v] m IH]; intros H; simpl; [reflexivity|].
  inversion H as [|? ? Hn Hm]; subst.
  destruct (streq k k') eqn:E.
  - f_equal. apply streq_eq in E. subst k'.
    clear IH H Hm. induction m as [|[k2 v2] m IH]; simpl; [reflexivity|].
    simpl in Hn. destruct (streq k k2) eqn:E2.
    + apply streq_eq in E2. subst. exfalso. apply Hn. now left.
    + f_equal. apply IH. intros Hin. apply Hn. now right.
  - f_equal. apply IH, Hm.
Qed.

(** ** The shape of a built graph *)

Lemma addEdge_spec (m : JsMap.t GraphNode) (es : list GraphEdge) (e : GraphEdge) :
  NoDup (map fst m) ->
  addEdge (m, es) e
  = (map (fun kn => (fst kn, tallyStep (fst kn) (snd kn) e)) m, es ++ [e]).
Proof.
  intros H. unfold addEdge. f_equal.
  rewrite (update_map (to e)).
  - rewrite update_map by exact H. rewrite map_map. apply map_ext.
    intros [k n]. simpl. unfold tallyStep. reflexivity.
  - rewrite update_map by exact H. rewrite map_map. simpl. exact H.
Qed.

Lemma addEdges_spec (new : list GraphEdge) (m : JsMap.t GraphNode)
    (es : list GraphEdge) :
  NoDup (map fst m) ->
  fold_left addEdge new (m, es)
  = (map (fun kn => (fst kn, tally (fst kn) new (snd kn))) m, es ++ new).
Proof.
  revert m es. induction new as [|e new IH]; intros m es H; cbn [fold_left].
  - rewrite app_nil_r. f_equal. rewrite <- (map_id m) at 1. apply map_ext.
    now intros [k n].
  - rewrite addEdge_spec by exact H. rewrite IH.
    + rewrite map_map. simpl. now rewrite <- app_assoc.
    + rewrite map_map. simpl. exact H.
Qed.

Lemma aggregate_flat (results : list (jstring * list GraphEdge))
    (st : JsMap.t GraphNode * list GraphEdge) :
  fold_left (fun st result => fold_left addEdge (snd result) st) results st
  = fold_left addEdge (flat_map snd results) st.
Proof.
  revert st. induction results as [|r results IH]; intros st; simpl; [reflexivity|].
  now rewrite IH, fold_left_app.
Qed.

Lemma flat_map_snd_map {A B C : Type} (f : A -> B * list C) (l : list A) :
  flat_map snd (map f l) = flat_map (fun p => snd (f p)) l.
Proof. induction l as [|p l IH]; simpl; [reflexivity|]. now rewrite IH. Qed.

(** The graph [getGraph] returns: one node per distinct note, in the
    order of first enumeration, its counters tallied over all edges. *)
Lemma getGraph_spec (v : Vault) :
  getGraph v
  = {| nodes := map (fun k => tally k (allEdges v (getAllNotes v)) (initNode k))
                    (JsSet.ofList (getAllNotes v));
       edges := allEdges v (getAllNotes v) |}.
Proof.
  unfold getGraph, aggregate. rewrite aggregate_flat, initNodes_spec.
  rewrite addEdges_spec.
  - unfold JsMap.values. rewrite !map_map. simpl.
    rewrite flat_map_snd_map. reflexivity.
  - rewrite map_map. simpl. rewrite map_id. apply ofList_NoDup.
Qed.

Lemma tally_fields (k : jstring) (es : list GraphEdge) (n : GraphNode) :
  id (tally k es n) = id n
  /\ label (tally k es n) = label n
  /\ outlinks (tally k es n) = outlinks n + countFrom k es
  /\ backlinks (tally k es n) = backlinks n + countTo k es
  /\ links (tally k es n) = links n + countFrom k es + countTo k es.
Proof.
  revert n. unfold tally, countFrom, countTo.
  induction es as [|e es IH]; intros n; simpl; [repeat split; lia|].
  destruct (IH (tallyStep k n e)) as (H1 & H2 & H3 & H4 & H5).
  rewrite H1, H2, H3, H4, H5. unfold tallyStep.
  destruct (streq (from e) k), (streq (to e) k); simpl; repeat split; lia.
Qed.

(** ** Resolution *)

Lemma resolveScan_In (nt lt : jstring) (notes : list jstring) (r : jstring) :
  resolveScan nt lt notes = Some r -> In r notes.
Proof.
  induction notes as [|note rest IH]; simpl; [discriminate|].
  destruct (streq (toLowerCase note) lt); [intros [= ->]; now left|].
  destruct (streq _ _); [intros [= ->]; now left|].
  intros H. right. now apply IH.
Qed.

(** What a resolved target is: the normalized target itself, the
    normalized target under the source directory, or a known note that
    the scan accepted. *)
Lemma resolveLink_cases (t : jstring) (S : JsSet.t) (d r : jstring) :
  resolveLink t S d = Some r ->
  In r S /\
  (r = withMd t \/ r = d ++ str "/" ++ withMd t
   \/ toLowerCase r = toLowerCase (withMd t)
   \/ toLowerCase (basename r) = toLowerCase (basename (withMd t))).
Proof.
  unfold resolveLink.
  destruct (JsSet.has S (withMd t)) eqn:E1.
  { intros [= <-]. split; [now apply has_In|now left]. }
  destruct (truthy d && JsSet.has S (d ++ str "/" ++ withMd t)) eqn:E2.
  { intros [= <-]. apply andb_true_iff in E2 as [_ E2].
    split; [now apply has_In|right; now left]. }
  intros H. split; [eapply resolveScan_In, H|]. right; right.
  clear E1 E2. induction S as [|note rest IH]; simpl in H; [discriminate|].
  destruct (streq (toLowerCase note) (toLowerCase (withMd t))) eqn:E3.
  { injection H as <-. left. now apply streq_eq. }
  destruct (streq (toLowerCase (basename note)) _) eqn:E4.
  { injection H as <-. right. now apply streq_eq. }
  now apply IH.
Qed.

Lemma resolveLink_In (t : jstring) (S : JsSet.t) (d r : jstring) :
  resolveLink t S d = Some r -> In r S.
Proof. intros H. now apply resolveLink_cases in H. Qed.

Lemma scanBase_acc (rp : jstring) (b : bool) (acc : jstring) :
  exists x, scanBase rp b acc = x ++ acc.
Proof.
  revert b acc. induction rp as [|c rp IH]; intros b acc; simpl.
  - now exists [].
  - destruct (Ascii.eqb c slash).
    + destruct b; [apply IH|now exists []].
    + destruct (IH false (c :: acc)) as [x ->]. exists (x ++ [c]).
      now rewrite <- app_assoc.
Qed.

(** The base name of a path that does not end with a slash ends with
    the path's last character. *)
Lemma basename_last (r : jstring) (c : ascii) :
  Ascii.eqb c slash = false -> exists x, basename (r ++ [c]) = x ++ [c].
Proof.
  intros H. unfold basename. rewrite rev_app_distr. simpl. rewrite H.
  apply scanBase_acc.
Qed.

Lemma lower_last (x y : jstring) (c d : ascii) :
  toLowerCase (x ++ [c]) = toLowerCase (y ++ [d]) -> lowerChar c = lowerChar d.
Proof.
  rewrite !toLowerCase_app. simpl. intros H.
  now apply app_inj_tail in H as [_ H].
Qed.

(** A resolved target is not empty, and its last character, unless it is
    a slash, is an upper or lower case [d]: the target it matches ends
    in [.md]. *)
Lemma resolveLink_last (t : jstring) (S : JsSet.t) (d r : jstring) :
  resolveLink t S d = Some r ->
  exists x c, r = x ++ [c] /\ (Ascii.eqb c slash = false -> lowerChar c = "d"%char).
Proof.
  intros H. apply resolveLink_cases in H as [_ H].
  destruct (withMd_last t) as [q Hq].
  destruct H as [->|[->|[H|H]]].
  - exists q, "d"%char. now split.
  - exists (d ++ str "/" ++ q), "d"%char. split; [|reflexivity].
    rewrite Hq. now rewrite <- !app_assoc.
  - rewrite Hq in H. destruct (rev r) as [|c rr] eqn:Er.
    + apply (f_equal (@rev ascii)) in Er. rewrite rev_involutive in Er. subst r.
      rewrite toLowerCase_app in H. simpl in H. now destruct (toLowerCase q).
    + apply (f_equal (@rev ascii)) in Er. rewrite rev_involutive in Er. simpl in Er.
      subst r. exists (rev rr), c. split; [reflexivity|]. intros _.
      now apply lower_last in H.
  - rewrite Hq in H. destruct (basename_last q "d"%char eq_refl) as [x Hx].
    rewrite Hx in H.
    destruct (rev r) as [|c rr] eqn:Er.
    + apply (f_equal (@rev ascii)) in Er. rewrite rev_involutive in Er. subst r.
      rewrite toLowerCase_app in H. simpl in H. now destruct (toLowerCase x).
    + apply (f_equal (@rev ascii)) in Er. rewrite rev_involutive in Er. simpl in Er.
      subst r. exists (rev rr), c. split; [reflexivity|]. intros Ec.
      destruct (basename_last (rev rr) c Ec) as [y Hy]. rewrite Hy in H.
      now apply lower_last in H.
Qed.

Lemma resolveLink_truthy (t : jstring) (S : JsSet.t) (d r : jstring) :
  resolveLink t S d = Some r -> truthy r = true.
Proof.
  intros H. apply resolveLink_last in H as (x & c & -> & _). now destruct x.
Qed.

Lemma resolveLink_not_markdown (t : jstring) (S : JsSet.t) (d r : jstring) :
  resolveLink t S d = Some r -> endsWith r markdown = false.
Proof.
  intros H. apply resolveLink_last in H as (x & c & -> & Hc).
  destruct (endsWith (x ++ [c]) markdown) eqn:E; [|reflexivity].
  change markdown with (str ".markdow" ++ [ "n"%char ]) in E.
  apply endsWith_last in E as [y E]. apply app_inj_tail in E as [_ E].
  subst c. specialize (Hc eq_refl). vm_compute in Hc. discriminate.
Qed.

(** ** The edges of a built graph *)

Lemma edgeOf_In (S : JsSet.t) (p d : jstring) (link : ExtractedLink) (e : GraphEdge) :
  In e (edgeOf S p d link) ->
  from e = p /\ resolveLink (target link) S d = Some (to e) /\ to e <> p
  /\ edgeLabel e = setIfTruthy (alias link).
Proof.
  unfold edgeOf. destruct (resolveLink (target link) S d) as [r|] eqn:E; [|intros []].
  destruct (truthy r && negb (streq r p)) eqn:C; [|intros []].
  intros [<-|[]]. simpl. apply andb_true_iff in C as [_ C].
  apply negb_true_iff in C. repeat split; trivial.
  intros ->. now rewrite streq_refl in C.
Qed.

Lemma allEdges_In (v : Vault) (notes : list jstring) (e : GraphEdge) :
  In e (allEdges v notes) ->
  In (from e) notes
  /\ (exists content link,
        readFile v (from e) = Some content /\ In link (extractLinks content)
        /\ resolveLink (target link) (JsSet.ofList notes) (sourceDirOf (from e))
           = Some (to e)
        /\ edgeLabel e = setIfTruthy (alias link))
  /\ to e <> from e.
Proof.
  unfold allEdges. intros H. apply in_flat_map in H as (p & Hp & H).
  unfold processNote in H. destruct (readFile v p) as [content|] eqn:R; [|destruct H].
  simpl in H. apply in_flat_map in H as (link & Hl & H).
  apply edgeOf_In in H as (-> & H2 & H3 & H4).
  split; [exact Hp|]. split; [|exact H3]. now exists content, link.
Qed.

Lemma allEdges_to_In (v : Vault) (notes : list jstring) (e : GraphEdge) :
  In e (allEdges v notes) -> In (to e) (JsSet.ofList notes).
Proof.
  intros H. apply allEdges_In in H as (_ & (c & l & _ & _ & H & _) & _).
  eapply resolveLink_In, H.
Qed.

Lemma getGraph_ids (v : Vault) :
  map id (nodes (getGraph v)) = JsSet.ofList (getAllNotes v).
Proof.
  rewrite getGraph_spec. simpl. rewrite map_map. rewrite <- (map_id (JsSet.ofList _)) at 2.
  apply map_ext. intros k. now destruct (tally_fields k (allEdges v (getAllNotes v)) (initNode k)).
Qed.

(** Over keys without repetition, the edges whose end is one of the
    keys are counted once each. *)
Lemma sum_counts (f : GraphEdge -> jstring) (ks : list jstring) (es : list GraphEdge) :
  NoDup ks -> (forall e, In e es -> In (f e) ks) ->
  list_sum (map (fun k => length (filter (fun e => streq (f e) k) es)) ks) = length es.
Proof.
  intros Hk. induction es as [|e es IH]; intros Hin; simpl.
  - clear Hk Hin. induction ks as [|k ks IHk]; simpl; [reflexivity|exact IHk].
  - rewrite <- IH by (intros; apply Hin; now right).
    assert (He : In (f e) ks) by (apply Hin; now left).
    clear IH Hin. induction ks as [|k ks IHk]; [destruct He|].
    inversion Hk as [|? ? Hn Hk']; subst. simpl.
    destruct (streq (f e) k) eqn:E.
    + apply streq_eq in E. subst k. simpl. do 3 f_equal.
      apply map_ext_in. intros k' Hk2. destruct (streq (f e) k') eqn:E2; [|reflexivity].
      apply streq_eq in E2. subst. contradiction.
    + destruct He as [->|He]; [now rewrite streq_refl in E|].
      specialize (IHk Hk' He). simpl in IHk |- *. lia.
Qed.

(** The ends of every edge of a built graph are nodes, and differ. *)
Lemma getGraph_edges_ends (v : Vault) :
  Forall (fun e => In (from e) (map id (nodes (getGraph v)))
                   /\ In (to e) (map id (nodes (getGraph v)))
                   /\ from e <> to e) (edges (getGraph v)).
Proof.
  rewrite getGraph_ids. rewrite getGraph_spec. simpl.
  apply Forall_forall. intros e He. split; [|split].
  - apply ofList_In. now apply allEdges_In in He.
  - now apply allEdges_to_In in He.
  - apply allEdges_In in He as (_ & _ & H). congruence.
Qed.

(** ** C2: the counters of a built graph *)

Lemma setIfTruthy_idem (o : option jstring) : setIfTruthy (setIfTruthy o) = setIfTruthy o.
Proof. unfold setIfTruthy. destruct (optTruthy o) eqn:E; [now rewrite E|reflexivity]. Qed.

(** The alias of a raw link is set only to a truthy value. *)
Lemma extractLinks_alias_set (content : jstring) (link : ExtractedLink) :
  In link (extractLinks content) -> setIfTruthy (alias link) = alias link.
Proof.
  unfold extractLinks. rewrite in_app_iff, !in_flat_map.
  intros [(cs & _ & H)|(cs & _ & H)].
  - unfold wikilinkOf in H. destruct (capture 1 cs) as [g|]; [|destruct H].
    destruct (truthy g); [|destruct H]. destruct H as [<-|[]]. apply setIfTruthy_idem.
  - unfold markdownLinkOf in H. destruct (capture 2 cs) as [g|]; [|destruct H].
    destruct (truthy g); [|destruct H]. destruct H as [<-|[]]. apply setIfTruthy_idem.
Qed.

Lemma flat_map_agree {A B : Type} (f g : A -> list B) (xs : list A) :
  (forall x, In x xs -> f x = g x) -> flat_map f xs = flat_map g xs.
Proof.
  induction xs as [|a xs IH]; intros H; [reflexivity|]. cbn [flat_map].
  rewrite (H a (or_introl eq_refl)), IH; [reflexivity|].
  intros x Hx. apply H. now right.
Qed.

(** The edges the scans of the notes hand to the aggregation are the
    accepted edges. *)
Lemma allEdges_accepted (v : Vault) : allEdges v (getAllNotes v) = acceptedEdges v.
Proof.
  unfold allEdges, acceptedEdges. apply flat_map_agree. intros p _.
  unfold processNote. destruct (readFile v p) as [content|]; [|reflexivity].
  cbn [snd]. apply flat_map_agree. intros link Hl. unfold edgeOf, acceptedLink.
  destruct (resolveLink (target link) _ _) as [r|] eqn:R; [|reflexivity].
  rewrite (resolveLink_truthy _ _ _ _ R), (extractLinks_alias_set content link Hl).
  cbn [andb]. now destruct (streq r p).
Qed.

(** C2. The edges of the graph [getGraph] returns are the accepted
    edges: those of the raw links of the readable notes that resolve
    to another note.  Every node has [links = outlinks + backlinks],
    its [outlinks] is the number of accepted edges whose source is the
    node and its [backlinks] the number of accepted edges whose target
    is the node; the number of edges is the sum of the [outlinks] of all
    nodes and also the sum of their [backlinks].  The nodes are the
    listed notes. *)
Theorem getGraph_counters (v : Vault) :
  let g := getGraph v in
  edges g = acceptedEdges v
  /\ map id (nodes g) = JsSet.ofList (getAllNotes v)
  /\ Forall (fun n => links n = outlinks n + backlinks n
                      /\ outlinks n = countFrom (id n) (acceptedEdges v)
                      /\ backlinks n = countTo (id n) (acceptedEdges v)) (nodes g)
  /\ Forall (fun n => links n = outlinks n + backlinks n
                      /\ outlinks n = countFrom (id n) (edges g)
                      /\ backlinks n = countTo (id n) (edges g)) (nodes g)
  /\ length (edges g) = list_sum (map outlinks (nodes g))
  /\ length (edges g) = list_sum (map backlinks (nodes g)).
Proof.
  intros g. subst g.
  assert (E : edges (getGraph v) = acceptedEdges v).
  { rewrite getGraph_spec. cbn [edges]. apply allEdges_accepted. }
  split; [exact E|]. split; [apply getGraph_ids|]. rewrite <- E.
  assert (C : Forall (fun n => links n = outlinks n + backlinks n
                      /\ outlinks n = countFrom (id n) (edges (getGraph v))
                      /\ backlinks n = countTo (id n) (edges (getGraph v)))
                     (nodes (getGraph v))).
  { rewrite getGraph_spec. simpl.
    apply Forall_forall. intros n Hn. apply in_map_iff in Hn as (k & <- & _).
    destruct (tally_fields k (allEdges v (getAllNotes v)) (initNode k))
      as (H1 & _ & H3 & H4 & H5).
    rewrite H1, H3, H4, H5. simpl. lia. }
  split; [exact C|]. split; [exact C|].
  rewrite getGraph_spec. simpl.
  set (notes := getAllNotes v). set (es := allEdges v notes).
  split.
  - rewrite map_map. rewrite <- (sum_counts from (JsSet.ofList notes) es).
    + f_equal. apply map_ext. intros k.
      now destruct (tally_fields k es (initNode k)) as (_ & _ & -> & _).
    + apply ofList_NoDup.
    + intros e He. apply ofList_In. now apply allEdges_In in He.
  - rewrite map_map. rewrite <- (sum_counts to (JsSet.ofList notes) es).
    + f_equal. apply map_ext. intros k.
      now destruct (tally_fields k es (initNode k)) as (_ & _ & _ & -> & _).
    + apply ofList_NoDup.
    + intros e He. now apply allEdges_to_In in He.
Qed.

(** ** C3: the edges of a built graph *)

(** C3. Both ends of every edge of a built graph are identifiers of
    its nodes, and no edge runs from a note to itself; a link that
    does not resolve, and a link that resolves to the note it stands
    in, give no edge. *)
Theorem getGraph_edges_closed (v : Vault) :
  let g := getGraph v in
  Forall (fun e => In (from e) (map id (nodes g)) /\ In (to e) (map id (nodes g))
                   /\ from e <> to e) (edges g)
  /\ (forall S notePath sourceDir link,
        resolveLink (target link) S sourceDir = None ->
        edgeOf S notePath sourceDir link = [])
  /\ (forall S notePath sourceDir link,
        resolveLink (target link) S sourceDir = Some notePath ->
        edgeOf S notePath sourceDir link = []).
Proof.
  intros g. subst g. split; [|split].
  - apply getGraph_edges_ends.
  - intros S p d link H. unfold edgeOf. now rewrite H.
  - intros S p d link H. unfold edgeOf. rewrite H, streq_refl.
    now rewrite andb_false_r.
Qed.

Lemma getGraph_edges_closed_witness :
  edgeOf [str "A.md"] (str "A.md") [] {| target := str "A"; alias := None |} = [].
Proof.
  apply (proj2 (proj2 (getGraph_edges_closed (vaultOf [note "A.md" "[[A]]"])))).
  vm_compute. reflexivity.
Defined.

(** ** C8: a note that cannot be read *)

Lemma countFrom_zero (k : jstring) (es : list GraphEdge) :
  (forall e, In e es -> from e <> k) -> countFrom k es = 0.
Proof.
  unfold countFrom. induction es as [|e es IH]; intros H; simpl; [reflexivity|].
  destruct (streq (from e) k) eqn:E.
  - apply streq_eq in E. exfalso. apply (H e); [now left|exact E].
  - apply IH. intros e' He'. apply H. now right.
Qed.

Lemma countTo_zero (k : jstring) (es : list GraphEdge) :
  (forall e, In e es -> to e <> k) -> countTo k es = 0.
Proof.
  unfold countTo. induction es as [|e es IH]; intros H; simpl; [reflexivity|].
  destruct (streq (to e) k) eqn:E.
  - apply streq_eq in E. exfalso. apply (H e); [now left|exact E].
  - apply IH. intros e' He'. apply H. now right.
Qed.

(** C8. A note whose read fails gives no edge to the build: no edge of
    the graph starts at it, and its node is still there, with no
    outlinks and with the backlinks the other notes give it.  A read
    failure in [getOutlinks] gives a result with no outlinks.  Both
    operations return a value in every case. *)
Theorem read_failure_contained (v : Vault) :
  (forall p, readFile v p = None ->
     processNote v (JsSet.ofList (getAllNotes v)) p = (p, [])
     /\ countFrom p (edges (getGraph v)) = 0
     /\ (In p (getAllNotes v) ->
         exists n, In n (nodes (getGraph v)) /\ id n = p /\ outlinks n = 0
                   /\ backlinks n = countTo p (edges (getGraph v))
                   /\ links n = backlinks n))
  /\ (forall path, readFile v (olPath (getOutlinks v path)) = None ->
        outlinksOf (getOutlinks v path) = []).
Proof.
  split.
  - intros p R. split; [unfold processNote; now rewrite R|].
    assert (C : countFrom p (allEdges v (getAllNotes v)) = 0).
    { apply countFrom_zero. intros e He Hp.
      apply allEdges_In in He as (_ & (c & l & Hr & _) & _). congruence. }
    rewrite getGraph_spec. simpl. split; [exact C|].
    intros Hp. exists (tally p (allEdges v (getAllNotes v)) (initNode p)).
    destruct (tally_fields p (allEdges v (getAllNotes v)) (initNode p))
      as (H1 & _ & H3 & H4 & H5).
    split; [apply in_map_iff; exists p; split; [reflexivity|now apply ofList_In]|].
    rewrite H1, H3, H4, H5, C. simpl. repeat split; lia.
  - intros path. unfold getOutlinks.
    set (actual := if JsSet.has _ _ then _ else _).
    destruct (readFile v actual) eqn:R; simpl; [rewrite R; discriminate|reflexivity].
Qed.

Lemma read_failure_contained_witness :
  countFrom (str "B.md") (edges (getGraph unreadableB)) = 0
  /\ outlinksOf (getOutlinks unreadableB (str "B")) = [].
Proof.
  split.
  - apply (proj1 (read_failure_contained unreadableB) (str "B.md")). reflexivity.
  - apply (proj2 (read_failure_contained unreadableB) (str "B")). reflexivity.
Defined.

(** ** C9: notes with the alternate extension are never targets *)

(** C9. Resolution never returns an identifier that ends in
    [.markdown]; so in a built graph no edge has such a target and the
    [backlinks] counter of such a node is 0, even when a note links to
    it by name. *)
Theorem markdown_notes_never_targets (v : Vault) :
  (forall t S d r, resolveLink t S d = Some r -> endsWith r markdown = false)
  /\ Forall (fun e => endsWith (to e) markdown = false) (edges (getGraph v))
  /\ Forall (fun n => endsWith (id n) markdown = true -> backlinks n = 0)
            (nodes (getGraph v))
  /\ getAllNotes (vaultOf [note "x.markdown" ""; note "a.md" "[[x]] [[x.markdown]]"])
     = [str "x.markdown"; str "a.md"]
  /\ edges (getGraph (vaultOf [note "x.markdown" ""; note "a.md" "[[x]] [[x.markdown]]"]))
     = [].
Proof.
  split; [exact resolveLink_not_markdown|].
  assert (He : forall e, In e (allEdges v (getAllNotes v)) -> endsWith (to e) markdown = false).
  { intros e H. apply allEdges_In in H as (_ & (c & l & _ & _ & H & _) & _).
    eapply resolveLink_not_markdown, H. }
  rewrite getGraph_spec. simpl. split; [|split; [|split]].
  - apply Forall_forall. exact He.
  - apply Forall_forall. intros n Hn Hm. apply in_map_iff in Hn as (k & <- & _).
    destruct (tally_fields k (allEdges v (getAllNotes v)) (initNode k))
      as (H1 & _ & _ & H4 & _).
    rewrite H1 in Hm. simpl in Hm. rewrite H4. simpl. apply countTo_zero.
    intros e Hin Heq. apply He in Hin. congruence.
  - reflexivity.
  - vm_compute. reflexivity.
Qed.

Lemma markdown_notes_never_targets_witness :
  endsWith (str "Notes/Todo.md") markdown = false.
Proof.
  apply (proj1 (markdown_notes_never_targets (vaultOf []))
           (str "todo") [str "Notes/Todo.md"] [] (str "Notes/Todo.md")).
  vm_compute. reflexivity.
Defined.

(** ** C6: backlinks *)

(** C6. [getBacklinks] normalizes the path to end in [.md] and returns,
    in edge order, the edges whose target is the normalized path or
    ends with a slash followed by it; every result has the source of
    its edge and the alias of the edge when there is one.  A query for
    [x.md] finds the edge to [x.md] and the edge to [folder/x.md]. *)
Theorem getBacklinks_spec (v : Vault) (path : jstring) :
  let np := if endsWith path md then path else path ++ md in
  getBacklinks v path
  = {| blPath := np;
       backlinksOf :=
         map (fun e => {| blFrom := from e; context := edgeLabel e |})
             (filter (isBacklinkTo np) (edges (getGraph v))) |}
  /\ (forall e, isBacklinkTo np e = true
                <-> to e = np \/ exists dir, to e = dir ++ str "/" ++ np)
  /\ map to (edges (getGraph nestedX)) = [str "x.md"; str "folder/x.md"]
  /\ backlinksOf (getBacklinks nestedX (str "x.md"))
     = [ {| blFrom := str "a.md"; context := None |};
         {| blFrom := str "a.md"; context := Some (str "see") |} ].
Proof.
  intros np. split; [|split; [|split]].
  - unfold getBacklinks. fold (withMd path). f_equal.
    apply map_ext_in. intros e He. f_equal.
    apply filter_In in He as [He _]. rewrite getGraph_spec in He. simpl in He.
    apply allEdges_In in He as (_ & (c & l & _ & _ & _ & ->) & _).
    apply setIfTruthy_idem.
  - intros e. unfold isBacklinkTo. rewrite orb_true_iff, streq_eq, endsWith_spec.
    split; (intros [H|[dir H]]; [now left|right; exists dir]).
    + now rewrite H.
    + now rewrite H.
  - vm_compute. reflexivity.
  - vm_compute. reflexivity.
Qed.

Lemma getBacklinks_spec_witness :
  isBacklinkTo (str "x.md") {| from := str "a.md"; to := str "folder/x.md"; edgeLabel := None |}
  = true.
Proof.
  apply (proj1 (proj2 (getBacklinks_spec nestedX (str "x")))).
  right. exists (str "folder"). reflexivity.
Defined.

(** ** C10: a bracket link with a blank target *)

Lemma pushNew_In (l : list jstring) (x y : jstring) :
  In y (pushNew l x) <-> In y l \/ y = x.
Proof.
  unfold pushNew. destruct (existsb (streq x) l) eqn:E.
  - apply existsb_exists in E as (z & Hz & E). apply streq_eq in E. subst z.
    split; [tauto|]. intros [H| ->]; assumption.
  - rewrite in_app_iff. simpl. intuition congruence.
Qed.




Lemma ofList_idem (l : list jstring) : JsSet.ofList (JsSet.ofList l) = JsSet.ofList l.
Proof. apply ofList_NoDup_id, ofList_NoDup. Qed.




(** ** C1: the order of the fuzzy matches *)

Lemma basename_lower (s : jstring) :
  toLowerCase (basename s) = basename (toLowerCase s).
Proof.
  unfold basename, toLowerCase. rewrite <- map_rev.
  change (@nil ascii) with (map lowerChar []) at 2.
  generalize (rev s) as rp, true as b, (@nil ascii) as acc.
  induction rp as [|c rp IH]; intros b acc; simpl; [reflexivity|].
  rewrite lowerChar_slash. destruct (Ascii.eqb c slash).
  - destruct b; [apply IH|reflexivity].
  - apply (IH false (c :: acc)).
Qed.

(** In the loop of [resolveLink] the test on the full identifier never
    decides: a note that passes it passes the test on the file name as
    well, so the loop returns the first note whose file name matches. *)
Lemma resolveScan_first_filename (nt : jstring) (notes : list jstring) :
  resolveScan nt (toLowerCase nt) notes
  = find (fun note => streq (toLowerCase (basename note)) (toLowerCase (basename nt)))
         notes.
Proof.
  induction notes as [|note rest IH]; simpl; [reflexivity|].
  destruct (streq (toLowerCase note) (toLowerCase nt)) eqn:E.
  - apply streq_eq in E. rewrite !basename_lower, E, streq_refl. reflexivity.
  - now rewrite IH.
Qed.

(** C1, at the input where the code departs from it.  The known set is
    [b/x.md], [A/X.md] and the target is [a/x]: [A/X.md] equals the
    normalized target [a/x.md] when case is ignored, [b/x.md] does not,
    and [resolveLink] returns [b/x.md], whose file name matches. *)
Theorem resolveLink_filename_before_full :
  let known := [str "b/x.md"; str "A/X.md"] in
  JsSet.ofList known = known
  /\ In (str "A/X.md") known
  /\ toLowerCase (str "A/X.md") = toLowerCase (withMd (str "a/x"))
  /\ toLowerCase (str "b/x.md") <> toLowerCase (withMd (str "a/x"))
  /\ resolveLink (str "a/x") known [] = Some (str "b/x.md")
  /\ getAllNotes twoX = known ++ [str "n.md"]
  /\ map (fun e => (from e, to e)) (edges (getGraph twoX)) = [(str "n.md", str "b/x.md")].
Proof.
  repeat split; try (vm_compute; reflexivity).
  - right. now left.
  - vm_compute. discriminate.
Qed.

(** ** C5: the fragment of an inline link *)

(** C5, at an input where the code departs from it.  In
    [[t](a.md#h.md)] the path is [a.md] and the fragment is [h.md]; the
    greedy group 2 of the pattern runs over the [#] up to the last
    [.md], and the extracted target is [a.md#h.md]. *)
Theorem markdown_link_keeps_fragment :
  extractLinks (str "[t](a.md#h.md)")
  = [ {| target := str "a.md#h.md"; alias := Some (str "t") |} ]
  /\ extractLinks (str "[t](a.md#intro)")
     = [ {| target := str "a.md"; alias := Some (str "t") |} ]
  /\ existsb (fun l => chr_in "#"%char (target l)) (extractLinks (str "[t](a.md#h.md)"))
     = true.
Proof. repeat split; vm_compute; reflexivity. Qed.

(** ** C7: the label of a note with the alternate extension *)

(** C7, at an input where the code departs from it.  The note
    [docs/foo.markdown] is enumerated, and the label of its node is
    [foo.markdown]: [basename(notePath, '.md')] strips the directory
    but only the extension [.md].  The label of [docs/bar.md] is
    [bar]. *)
Theorem markdown_label_keeps_extension :
  getAllNotes docsVault = [str "docs/foo.markdown"; str "docs/bar.md"]
  /\ map (fun n => (id n, label n)) (nodes (getGraph docsVault))
     = [(str "docs/foo.markdown", str "foo.markdown"); (str "docs/bar.md", str "bar")].
Proof. split; vm_compute; reflexivity. Qed.

(** ** C4: the local graph *)

Section Bfs.
Variable es : list GraphEdge.
Variable c : jstring.
Variable depth : Z.

(** The entries the loop has dequeued ([done]) and the queue; the
    included nodes are the nodes of both, in this order. *)
Definition enqueued (done q : list (jstring * Z)) : list (jstring * Z) := done ++ q.

Record Inv (done q : list (jstring * Z)) : Prop := {
  inv_center : In (c, 0%Z) (enqueued done q);
  inv_walk : forall w k, In (w, k) (enqueued done q) ->
               (0 <= k <= depth)%Z /\ walk es c (Z.to_nat k) w;
  inv_sorted : StronglySorted Z.le (map snd q);
  inv_level : forall m, hd_error (map snd q) = Some m ->
                forall w k, In (w, k) (enqueued done q) -> (k <= m + 1)%Z;
  inv_expanded : forall u k, In (u, k) done -> (k < depth)%Z ->
                   forall w, adjacent es u w ->
                     exists kw, In (w, kw) (enqueued done q) /\ (kw <= k + 1)%Z
}.

(** The effect of the loop over the edges, for the dequeued node
    [u]: the new nodes are neighbours of [u], they are appended with
    depth [d + 1], and afterwards every neighbour is included. *)
Lemma visitEdges_spec (u : jstring) (d : Z) (l : list GraphEdge) (st : BfsState) :
  exists news,
    fold_left (visitEdge u d) l st
    = (fst st ++ news, snd st ++ map (fun w => (w, (d + 1)%Z)) news)
    /\ (forall w, In w news -> adjacent l u w)
    /\ (forall w, adjacent l u w -> In w (fst st ++ news)).
Proof.
  revert st. induction l as [|e l IH]; intros st.
  - exists []. simpl. rewrite !app_nil_r. split; [now destruct st|].
    split; [intros w []|intros w (e & [] & _)].
  - simpl. rewrite visitEdge_discover.
    set (st1 := discover (streq (from e) u) (to e) d st).
    set (st2 := discover (streq (to e) u) (from e) d st1).
    assert (D : forall hit x s, exists n1,
               discover hit x d s = (fst s ++ n1, snd s ++ map (fun w => (w, (d + 1)%Z)) n1)
               /\ (forall w, In w n1 -> hit = true /\ w = x)
               /\ (hit = true -> In x (fst s ++ n1))).
    { intros hit x s. unfold discover.
      destruct (hit && negb (JsSet.has (fst s) x)) eqn:E.
      - exists [x]. simpl. split; [reflexivity|].
        apply andb_true_iff in E as [-> _]. split.
        + intros w [<-|[]]. now split.
        + intros _. apply in_or_app. right. now left.
      - exists []. simpl. rewrite !app_nil_r. split; [now destruct s|].
        split; [intros w []|]. intros ->. simpl in E.
        apply negb_false_iff in E. now apply has_In. }
    destruct (D (streq (from e) u) (to e) st) as (n1 & E1 & N1 & C1).
    destruct (D (streq (to e) u) (from e) st1) as (n2 & E2 & N2 & C2).
    destruct (IH st2) as (n3 & E3 & N3 & C3).
    fold st1 in E1. fold st2 in E2.
    exists (n1 ++ n2 ++ n3). split; [|split].
    + rewrite E3, E2, E1. simpl. rewrite !map_app, <- !app_assoc. reflexivity.
    + intros w Hw. apply in_app_iff in Hw as [Hw|Hw];
        [|apply in_app_iff in Hw as [Hw|Hw]].
      * apply N1 in Hw as [Hh ->]. apply streq_eq in Hh.
        exists e. split; [now left|]. now left.
      * apply N2 in Hw as [Hh ->]. apply streq_eq in Hh.
        exists e. split; [now left|]. now right.
      * apply N3 in Hw as (e' & He' & Hadj). exists e'. split; [now right|exact Hadj].
    + intros w (e' & [<-|He'] & Hadj).
      * rewrite E1 in C2. simpl in C2.
        rewrite !app_assoc. apply in_or_app. left.
        destruct Hadj as [[Hf <-]|[Ht <-]].
        -- apply in_or_app. left. apply C1. now apply streq_eq.
        -- apply C2. now apply streq_eq.
      * assert (A : adjacent l u w) by (now exists e').
        apply C3 in A. rewrite E2, E1 in A. simpl in A.
        now rewrite <- !app_assoc in A.
Qed.

Lemma sorted_snoc (l : list Z) (x : Z) (n : nat) :
  StronglySorted Z.le l -> Forall (fun y => (y <= x)%Z) l ->
  StronglySorted Z.le (l ++ repeat x n).
Proof.
  intros S F. induction S as [|y l S IH Hy]; simpl.
  - induction n; simpl; constructor; [assumption|].
    apply Forall_forall. intros z Hz. apply repeat_spec in Hz. lia.
  - inversion F as [|? ? Fy Fl]; subst. constructor; [now apply IH|].
    apply Forall_app. split; [exact Hy|].
    apply Forall_forall. intros z Hz. apply repeat_spec in Hz. lia.
Qed.

Lemma map_snd_const (news : list jstring) (k : Z) :
  map snd (map (fun w => (w, k)) news) = repeat k (length news).
Proof. induction news; simpl; [reflexivity|now f_equal]. Qed.

Lemma map_fst_const (news : list jstring) (k : Z) :
  map fst (map (fun w => (w, k)) news) = news.
Proof. induction news; simpl; [reflexivity|now f_equal]. Qed.

(** A dequeued entry at the depth bound is dropped. *)
Lemma Inv_skip (done q : list (jstring * Z)) (u : jstring) (k : Z) :
  Inv done ((u, k) :: q) -> (k >= depth)%Z -> Inv (done ++ [(u, k)]) q.
Proof.
  intros [Hc Hw Hs Hl He] Hk. unfold enqueued in *.
  assert (Same : forall x, In x ((done ++ [(u, k)]) ++ q) <-> In x (done ++ (u, k) :: q)).
  { intros x. now rewrite <- app_assoc. }
  simpl in Hs. inversion Hs as [|? ? Hs' Hmin]; subst.
  constructor; unfold enqueued.
  - now apply Same.
  - intros w j H. apply Hw. now apply Same.
  - exact Hs'.
  - intros m Hm w j H. apply Same in H. specialize (Hl k eq_refl w j H).
    destruct q as [|[h m'] q]; [discriminate|]. simpl in Hm. injection Hm as ->.
    inversion Hmin; subst. lia.
  - intros x j Hx Hj w Hadj. apply in_app_iff in Hx as [Hx|[[= -> ->]|[]]]; [|lia].
    destruct (He x j Hx Hj w Hadj) as (kw & Hin & Hle).
    exists kw. split; [now apply Same|exact Hle].
Qed.

(** A dequeued entry below the depth bound is expanded. *)
Lemma Inv_expand (done q : list (jstring * Z)) (u : jstring) (k : Z)
    (news : list jstring) :
  Inv done ((u, k) :: q) -> (k < depth)%Z ->
  (forall w, In w news -> adjacent es u w) ->
  (forall w, adjacent es u w -> In w (map fst (done ++ (u, k) :: q) ++ news)) ->
  Inv (done ++ [(u, k)]) (q ++ map (fun w => (w, (k + 1)%Z)) news).
Proof.
  intros [Hc Hw Hs Hl He] Hk Hnew Hall. unfold enqueued in *.
  assert (Same : forall x, In x ((done ++ [(u, k)]) ++ q ++ map (fun w => (w, (k + 1)%Z)) news)
                 <-> In x (done ++ (u, k) :: q) \/ In x (map (fun w => (w, (k + 1)%Z)) news)).
  { intros x. rewrite <- app_assoc. simpl. rewrite !in_app_iff. simpl.
    rewrite in_app_iff. tauto. }
  simpl in Hs. inversion Hs as [|? ? Hs' Hmin]; subst.
  assert (Hu : (0 <= k <= depth)%Z /\ walk es c (Z.to_nat k) u).
  { apply Hw. apply in_or_app. right. now left. }
  assert (Hq : Forall (fun y => (y <= k + 1)%Z) (map snd q)).
  { apply Forall_forall. intros y Hy. apply in_map_iff in Hy as ([w j] & <- & Hin).
    apply (Hl k eq_refl w j). apply in_or_app. right. now right. }
  constructor; unfold enqueued.
  - apply Same. now left.
  - intros w j H. apply Same in H as [H|H]; [now apply Hw|].
    apply in_map_iff in H as (w' & [= -> <-] & Hin). split; [lia|].
    replace (Z.to_nat (k + 1)) with (S (Z.to_nat k)) by lia.
    apply walk_step with u; [apply Hu|now apply Hnew].
  - rewrite map_app, map_snd_const. now apply sorted_snoc.
  - intros m Hm w j H.
    assert (Hkm : (k <= m)%Z).
    { rewrite map_app, map_snd_const in Hm. destruct q as [|[h m'] q]; simpl in Hm.
      - destruct news; simpl in Hm; [discriminate|]. injection Hm as <-. lia.
      - injection Hm as ->. inversion Hmin; subst. assumption. }
    apply Same in H as [H|H].
    + specialize (Hl k eq_refl w j H). lia.
    + apply in_map_iff in H as (w' & [= -> <-] & _). lia.
  - intros x j Hx Hj w Hadj. apply in_app_iff in Hx as [Hx|[[= -> ->]|[]]].
    + destruct (He x j Hx Hj w Hadj) as (kw & Hin & Hle).
      exists kw. split; [apply Same; now left|exact Hle].
    + apply Hall in Hadj. apply in_app_iff in Hadj as [Hin|Hin].
      * apply in_map_iff in Hin as ([w' kw] & <- & Hin). simpl.
        exists kw. split; [apply Same; now left|].
        apply (Hl j eq_refl w' kw Hin).
      * exists (j + 1)%Z. split; [|lia]. apply Same. right.
        apply in_map_iff. now exists w.
Qed.

(** The loop keeps the invariant and ends with an empty queue. *)
Lemma bfs_Inv (n : nat) (st : BfsState) (done : list (jstring * Z)) :
  bfsMeasure es st < n ->
  fst st = map fst (done ++ snd st) -> Inv done (snd st) ->
  exists done', bfs depth es st = map fst done' /\ Inv done' [].
Proof.
  revert st done. induction n as [|n IH]; intros [inc q] done Hn Hinc HI; [lia|].
  simpl in Hinc, HI. destruct q as [|[u k] q].
  - simp bfs. exists done. rewrite app_nil_r in Hinc. now split.
  - simp bfs. destruct (k >=? depth)%Z eqn:Ek.
    + apply (IH (inc, q) (done ++ [(u, k)])).
      * unfold bfsMeasure in *. simpl in *. lia.
      * simpl. now rewrite <- app_assoc.
      * simpl. apply Inv_skip; [exact HI|lia].
    + destruct (visitEdges_spec u k es (inc, q)) as (news & E & Hnew & Hall).
      simpl in E. rewrite E.
      apply (IH _ (done ++ [(u, k)])).
      * pose proof (visitEdges_measure es es u k (inc, q) (incl_refl _)) as M.
        rewrite E in M. unfold bfsMeasure in *. simpl in *. lia.
      * simpl. rewrite Hinc, <- !app_assoc, !map_app, map_fst_const. simpl.
        now rewrite <- !app_assoc.
      * simpl. apply Inv_expand; [exact HI|lia|exact Hnew|].
        intros w Hadj. apply Hall in Hadj. simpl in Hadj.
        now rewrite Hinc in Hadj.
Qed.

(** The nodes the traversal includes are the nodes within [depth]
    hops of the center. *)
Lemma bfs_withinHops (w : jstring) :
  (0 <= depth)%Z ->
  In w (bfs depth es ([c], [(c, 0%Z)])) <-> withinHops es c depth w.
Proof.
  intros Hd.
  destruct (bfs_Inv (S (bfsMeasure es ([c], [(c, 0%Z)]))) ([c], [(c, 0%Z)]) [])
    as (done & -> & [Hc Hw _ _ He]).
  - lia.
  - reflexivity.
  - simpl. constructor; unfold enqueued; simpl.
    + now left.
    + intros x k [[= <- <-]|[]]. split; [lia|constructor].
    + repeat constructor.
    + intros m [= <-] x k [[= <- <-]|[]]. lia.
    + intros u k [].
  - unfold enqueued in *. rewrite app_nil_r in *. split.
    + intros H. apply in_map_iff in H as ([x k] & <- & Hin). simpl.
      destruct (Hw x k Hin) as [Hk Hwalk]. exists (Z.to_nat k). split; [lia|exact Hwalk].
    + intros (n & Hn & Hwalk).
      assert (G : exists k, In (w, k) done /\ (k <= Z.of_nat n)%Z).
      { clear Hw. induction Hwalk as [|n u w Hwalk IH Hadj].
        - exists 0%Z. split; [exact Hc|lia].
        - destruct IH as (k & Hin & Hk); [lia|].
          destruct (He u k Hin ltac:(lia) w Hadj) as (kw & Hin' & Hle).
          exists kw. split; [exact Hin'|lia]. }
      destruct G as (k & Hin & _). apply in_map_iff. now exists (w, k).
Qed.

(** With a depth of 0 or less the center is dequeued and not expanded. *)
Lemma bfs_no_hops :
  (depth <= 0)%Z -> bfs depth es ([c], [(c, 0%Z)]) = [c].
Proof.
  intros H. simp bfs. destruct (0 >=? depth)%Z eqn:E; [now simp bfs|lia].
Qed.
End Bfs.

Lemma findCenter_In (g : Graph) (p : jstring) (n : GraphNode) :
  findCenter g p = Some n -> In n (nodes g).
Proof.
  unfold findCenter, findFirst.
  destruct (find _ (nodes g)) eqn:E.
  - intros [= <-]. now apply find_some in E.
  - intros H. now apply find_some in H.
Qed.

Lemma getGraph_ids_NoDup (v : Vault) : NoDup (map id (nodes (getGraph v))).
Proof. rewrite getGraph_ids. apply ofList_NoDup. Qed.

Lemma filter_only (l : list GraphNode) (c : GraphNode) :
  NoDup (map id l) -> In c l ->
  filter (fun n => JsSet.has [id c] (id n)) l = [c].
Proof.
  induction l as [|n l IH]; intros Hn Hc; [destruct Hc|].
  simpl in Hn. inversion Hn as [|? ? Hnot Hn']; subst. simpl.
  rewrite orb_false_r. destruct Hc as [->|Hc].
  - rewrite streq_refl. f_equal.
    clear IH Hn Hn'. induction l as [|m l IH]; simpl; [reflexivity|].
    rewrite orb_false_r. destruct (streq (id m) (id c)) eqn:E.
    + apply streq_eq in E. exfalso. apply Hnot. left. exact E.
    + apply IH. intros H. apply Hnot. now right.
  - destruct (streq (id n) (id c)) eqn:E; [|now apply IH].
    apply streq_eq in E. exfalso. apply Hnot. rewrite E. now apply in_map.
Qed.

(** In a built graph a walk from a node stays among the nodes. *)
Lemma walk_in_graph (v : Vault) (c w : jstring) (n : nat) :
  In c (map id (nodes (getGraph v))) ->
  walk (edges (getGraph v)) c n w -> In w (map id (nodes (getGraph v))).
Proof.
  intros Hc Hw. induction Hw as [|n u w Hw IH (e & He & Hadj)]; [exact Hc|].
  pose proof (getGraph_edges_ends v) as F.
  rewrite Forall_forall in F. destruct (F e He) as (Hf & Ht & _).
  destruct Hadj as [[_ <-]|[_ <-]]; assumption.
Qed.

(** C4. When the center is found and the depth is not negative, the
    local graph is the full graph restricted to the nodes within
    [depth] hops of the center, edges taken in either direction: its
    nodes are exactly those nodes and its edges are exactly the edges
    of the full graph with both ends among them.  With depth 0 it is the
    center alone, without edges.  On the chain [A -> B -> C], from
    [A] with depth 1, it has the nodes [A], [B] and the edge [A -> B]
    only. *)
Theorem getLocalGraph_spec (v : Vault) (path : jstring) (depth : option Z)
    (center : GraphNode) :
  let g := getGraph v in
  let d := match depth with Some d => d | None => 1%Z end in
  let local := getLocalGraph v path depth in
  (0 <= d)%Z ->
  findCenter g (withMd path) = Some center ->
  (forall w, In w (map id (nodes local)) <-> withinHops (edges g) (id center) d w)
  /\ (exists visited : jstring -> bool,
        (forall w, visited w = true <-> withinHops (edges g) (id center) d w)
        /\ local = {| nodes := filter (fun n => visited (id n)) (nodes g);
                      edges := filter (fun e => visited (from e) && visited (to e))
                                      (edges g) |})
  /\ (d = 0%Z -> local = {| nodes := [center]; edges := [] |})
  /\ edges (getGraph chainABC)
     = [ {| from := str "A.md"; to := str "B.md"; edgeLabel := None |};
         {| from := str "B.md"; to := str "C.md"; edgeLabel := None |} ]
  /\ map id (nodes (getLocalGraph chainABC (str "A") (Some 1%Z)))
     = [str "A.md"; str "B.md"]
  /\ edges (getLocalGraph chainABC (str "A") (Some 1%Z))
     = [ {| from := str "A.md"; to := str "B.md"; edgeLabel := None |} ]
  /\ getLocalGraph chainABC (str "A") None = getLocalGraph chainABC (str "A") (Some 1%Z).
Proof.
  intros g d local Hd Hc.
  assert (Hcin : In center (nodes g)) by (eapply findCenter_In, Hc).
  assert (L : local
    = {| nodes := filter (fun n => JsSet.has (bfs d (edges g) ([id center], [(id center, 0%Z)])) (id n))
                         (nodes g);
         edges := filter (fun e => JsSet.has (bfs d (edges g) ([id center], [(id center, 0%Z)])) (from e)
                                   && JsSet.has (bfs d (edges g) ([id center], [(id center, 0%Z)])) (to e))
                         (edges g) |}).
  { subst local. unfold getLocalGraph. fold g. fold d. now rewrite Hc. }
  assert (V : forall w, JsSet.has (bfs d (edges g) ([id center], [(id center, 0%Z)])) w = true
                        <-> withinHops (edges g) (id center) d w).
  { intros w. rewrite has_In. now apply bfs_withinHops. }
  split; [|split; [|split]].
  - intros w. rewrite L. simpl. rewrite <- V. split.
    + intros H. apply in_map_iff in H as (n & <- & Hn).
      now apply filter_In in Hn.
    + intros H. apply V in H as H'. destruct H' as (k & _ & Hw).
      apply (walk_in_graph v) in Hw; [|now apply in_map].
      fold g in Hw. apply in_map_iff in Hw as (n & <- & Hn).
      apply in_map. apply filter_In. now split.
  - exists (JsSet.has (bfs d (edges g) ([id center], [(id center, 0%Z)]))).
    split; [exact V|exact L].
  - intros Hz. rewrite L, Hz. simp bfs. simpl. f_equal.
    + apply filter_only; [apply getGraph_ids_NoDup|exact Hcin].
    + pose proof (getGraph_edges_ends v) as F. fold g in F.
      clear L V. revert F. generalize (edges g) as l.
      induction l as [|e l IH]; intros F; simpl; [reflexivity|].
      inversion F as [|? ? (_ & _ & Hne) F']; subst. specialize (IH F').
      rewrite !orb_false_r.
      destruct (streq (from e) (id center)) eqn:E1; simpl; [|exact IH].
      destruct (streq (to e) (id center)) eqn:E2; simpl; [|exact IH].
      apply streq_eq in E1, E2. congruence.
  - repeat split; vm_compute; reflexivity.
Qed.

Lemma getLocalGraph_spec_witness :
  getLocalGraph chainABC (str "B") (Some 0%Z)
  = {| nodes := [ {| id := str "B.md"; label := str "B"; links := 2;
                     outlinks := 1; backlinks := 1 |} ];
       edges := [] |}.
Proof.
  apply (getLocalGraph_spec chainABC (str "B") (Some 0%Z)
           {| id := str "B.md"; label := str "B"; links := 2;
              outlinks := 1; backlinks := 1 |}).
  - simpl. lia.
  - vm_compute. reflexivity.
  - reflexivity.
Defined.

(* ===================================================================== *)
(** * Further properties                                                  *)
(* ===================================================================== *)

(** ** The matcher *)

Lemma starNot_sound (A : Type) (ex : list ascii) (s : jstring)
    (k : jstring -> option A) (res : A) :
  starNot ex s k = Some res ->
  exists p s', s = p ++ s' /\ Forall (fun c => chr_in c ex = false) p
               /\ k s' = Some res.
Proof.
  induction s as [|c s IH]; simpl.
  - intros H. now exists [], [].
  - destruct (chr_in c ex) eqn:E.
    + intros H. now exists [], (c :: s).
    + destruct (starNot ex s k) as [r|] eqn:R.
      * intros [= <-]. destruct (IH eq_refl) as (p & s' & -> & F & K).
        exists (c :: p), s'. repeat split; [now constructor|exact K].
      * intros H. now exists [], (c :: s).
Qed.

(** What the matcher returns is a match of the pattern. *)
Lemma rmatch_sound (A : Type) (r : regex) :
  forall (s : jstring) (cs : captures) (k : jstring -> captures -> option A) (res : A),
    rmatch r s cs k = Some res ->
    exists s' cs', matches r s cs s' cs' /\ k s' cs' = Some res.
Proof.
  induction r as [c|ex|ex|r1 IH1 r2 IH2|r1 IH1|i r1 IH1]; intros s cs k res; simpl.
  - destruct s as [|c' s]; [discriminate|].
    destruct (Ascii.eqb c c') eqn:E; [|discriminate].
    apply Ascii.eqb_eq in E. subst c'. intros H. now exists s, cs.
  - intros H. apply starNot_sound in H as (p & s' & -> & F & K).
    exists s', cs. split; [now exists p|exact K].
  - destruct s as [|c s]; [discriminate|].
    destruct (chr_in c ex) eqn:E; [discriminate|].
    intros H. apply starNot_sound in H as (p & s' & -> & F & K).
    exists s', cs. split; [|exact K].
    exists (c :: p). repeat split; [discriminate|now constructor].
  - intros H. apply IH1 in H as (s1 & cs1 & M1 & H).
    apply IH2 in H as (s' & cs' & M2 & K).
    exists s', cs'. split; [now exists s1, cs1|exact K].
  - destruct (rmatch r1 s cs k) as [x|] eqn:R.
    + intros [= <-]. apply IH1 in R as (s' & cs' & M & K).
      exists s', cs'. split; [now left|exact K].
    + intros H. exists s, cs. split; [now right|exact H].
  - intros H. apply IH1 in H as (s' & cs1 & M & K).
    exists s', ((i, firstn (length s - length s') s) :: cs1).
    split; [now exists cs1|exact K].
Qed.

Lemma matchHere_sound (r : regex) (s rest : jstring) (cs : captures) :
  matchHere r s = Some (cs, rest) -> matches r s [] rest cs.
Proof.
  unfold matchHere. intros H.
  apply rmatch_sound in H as (s' & cs' & M & [= <- <-]). exact M.
Qed.

(** Every element of the loop's result is a match found somewhere in
    the text. *)
Lemma execAll_In (r : regex) (skip : nat) (s : jstring) (cs : captures) :
  In cs (execAll r skip s) ->
  exists before here rest, s = before ++ here /\ matchHere r here = Some (cs, rest).
Proof.
  revert skip. induction s as [|c s IH]; intros skip; simpl; [intros []|].
  assert (Tail : forall n, In cs (execAll r n s) ->
            exists before here rest,
              c :: s = before ++ here /\ matchHere r here = Some (cs, rest)).
  { intros n H. apply IH in H as (b & h & rest & -> & M). now exists (c :: b), h, rest. }
  destruct skip as [|n]; [|apply Tail].
  destruct (matchHere r (c :: s)) as [[cs0 rest]|] eqn:M; [|apply Tail].
  intros [<-|H]; [now exists [], (c :: s), rest|eapply Tail, H].
Qed.

Lemma lit_matches (l : jstring) (k : regex) (s : jstring) (cs : captures)
    (s' : jstring) (cs' : captures) :
  matches (lit l k) s cs s' cs' ->
  exists s1, s = l ++ s1 /\ matches k s1 cs s' cs'.
Proof.
  revert s. induction l as [|c l IH]; intros s; simpl.
  - intros H. now exists s.
  - intros (s1 & cs1 & [-> ->] & H). apply IH in H as (s2 & -> & H). now exists s2.
Qed.

Lemma firstn_prefix (p q : jstring) :
  firstn (length (p ++ q) - length q) (p ++ q) = p.
Proof.
  rewrite length_app. replace (length p + length q - length q) with (length p) by lia.
  rewrite firstn_app, Nat.sub_diag, firstn_all. simpl. apply app_nil_r.
Qed.

(** The shape of a match of [WIKILINK_PATTERN]: group 1 is a non-empty
    run without the characters that end it. *)
Lemma wikilink_match (s rest : jstring) (cs : captures) :
  matchHere WIKILINK_PATTERN s = Some (cs, rest) ->
  exists g1, capture 1 cs = Some g1 /\ g1 <> []
             /\ Forall (fun c => chr_in c (str "]|#") = false) g1.
Proof.
  intros H. apply matchHere_sound in H. unfold WIKILINK_PATTERN in H.
  apply lit_matches in H as (s1 & -> & H).
  destruct H as (s2 & c2 & (c1 & (g1 & -> & Hne & F & ->) & ->) & H).
  rewrite firstn_prefix in H.
  destruct H as (s3 & c3 & Hfrag & s4 & c4 & Halias & H).
  assert (E3 : c3 = [(1, g1)]).
  { destruct Hfrag as [(s5 & c5 & [_ ->] & (p & _ & _ & ->))|[_ ->]]; reflexivity. }
  subst c3. destruct H as (s6 & c6 & [_ ->] & [_ ->]).
  exists g1. split; [|now split].
  destruct Halias as [(s5 & c5 & [_ ->] & (c7 & (p & _ & _ & ->) & ->))|[_ ->]];
    reflexivity.
Qed.

(** The shape of a match of [MARKDOWN_LINK_PATTERN]: group 2 is a
    non-empty run without closing parenthesis, followed by [.md]. *)
Lemma markdown_match (s rest : jstring) (cs : captures) :
  matchHere MARKDOWN_LINK_PATTERN s = Some (cs, rest) ->
  exists g1 p, capture 1 cs = Some g1 /\ capture 2 cs = Some (p ++ md)
               /\ p <> [] /\ Forall (fun c => chr_in c (str ")") = false) p.
Proof.
  intros H. apply matchHere_sound in H. unfold MARKDOWN_LINK_PATTERN in H.
  destruct H as (s1 & c1 & [-> ->] & s2 & c2 & (c3 & (g1 & -> & _ & ->) & ->) & H).
  rewrite firstn_prefix in H.
  apply lit_matches in H as (s3 & -> & H).
  destruct H as (s4 & c4 & (c5 & (s5 & c6 & (p & -> & Hne & F & ->) & H5) & ->) & H).
  apply lit_matches in H5 as (s6 & -> & [-> ->]).
  destruct H as (s7 & c7 & Hfrag & [_ ->]).
  assert (E7 : c7 = [(2, p ++ md); (1, g1)]).
  { change (p ++ str ".m" ++ "d"%char :: s4) with (p ++ md ++ s4) in Hfrag |- *.
    rewrite app_assoc, firstn_prefix in Hfrag.
    destruct Hfrag as [(s8 & c8 & [_ ->] & (q & _ & _ & ->))|[_ ->]]; reflexivity. }
  subst c7. exists g1, p. now repeat split.
Qed.

(** ** [trim] *)

Lemma trimStart_Forall (P : ascii -> Prop) (s : jstring) :
  Forall P s -> Forall P (trimStart s).
Proof.
  induction 1 as [|c s Hc Hs IH]; simpl; [constructor|].
  destruct (isSpace c); [exact IH|now constructor].
Qed.

Lemma trim_Forall (P : ascii -> Prop) (s : jstring) :
  Forall P s -> Forall P (trim s).
Proof.
  intros H. unfold trim. apply Forall_rev, trimStart_Forall, Forall_rev.
  now apply trimStart_Forall.
Qed.

(** What [trimStart] returns does not start with white space. *)
Lemma trimStart_head (s : jstring) :
  match trimStart s with [] => True | c :: _ => isSpace c = false end.
Proof.
  induction s as [|c s IH]; simpl; [exact I|].
  destruct (isSpace c) eqn:E; [exact IH|exact E].
Qed.

Lemma trimStart_fixed (s : jstring) :
  match s with [] => True | c :: _ => isSpace c = false end -> trimStart s = s.
Proof. destruct s as [|c s]; simpl; [reflexivity|]. now intros ->. Qed.

Lemma trimStart_suffix (s : jstring) : exists p, s = p ++ trimStart s.
Proof.
  induction s as [|c s [p IH]]; simpl; [now exists []|].
  destruct (isSpace c); [|now exists []].
  exists (c :: p). simpl. now f_equal.
Qed.

(** [trim] leaves what it returns unchanged. *)
Lemma trim_idem (s : jstring) : trim (trim s) = trim s.
Proof.
  unfold trim. set (a := trimStart s). set (b := trimStart (rev a)).
  assert (Hb : trimStart b = b) by (apply trimStart_fixed, trimStart_head).
  assert (Ha : trimStart (rev b) = rev b).
  { apply trimStart_fixed.
    destruct (trimStart_suffix (rev a)) as [p Hp]. fold b in Hp.
    apply (f_equal (@rev ascii)) in Hp. rewrite rev_involutive, rev_app_distr in Hp.
    pose proof (trimStart_head s) as Hh. fold a in Hh. rewrite Hp in Hh.
    destruct (rev b); [exact I|exact Hh]. }
  now rewrite Ha, rev_involutive, Hb.
Qed.

(** Trimming keeps a final [.md]. *)
Lemma trim_md (p : jstring) : exists q, trim (p ++ md) = q ++ md.
Proof.
  assert (H : exists q, trimStart (p ++ md) = q ++ md).
  { induction p as [|c p [q IH]]; [now exists []|]. simpl.
    destruct (isSpace c); [now exists q|now exists (c :: p)]. }
  destruct H as [q H]. exists q. unfold trim. rewrite H, rev_app_distr. simpl.
  rewrite <- (rev_involutive (q ++ md)). now rewrite rev_app_distr.
Qed.

(** ** what [extractLinks] returns *)

Lemma execAll_first_char (c0 : ascii) (r : regex) (skip : nat) (s : jstring) :
  chr_in c0 s = false -> execAll (RSeq (RChar c0) r) skip s = [].
Proof.
  revert skip. induction s as [|c s IH]; intros skip H; [reflexivity|].
  unfold chr_in in H. simpl in H. apply orb_false_iff in H as [Hc Hs].
  simpl. destruct skip as [|n]; [|now apply IH].
  unfold matchHere. simpl. rewrite Hc. now apply IH.
Qed.

(** A text without an opening bracket has no links; so has the empty
    text. *)
Theorem extractLinks_without_bracket (content : jstring) :
  chr_in "["%char content = false -> extractLinks content = [].
Proof.
  intros H. unfold extractLinks.
  change WIKILINK_PATTERN with
    (RSeq (RChar "["%char) (lit (str "[") (RSeq (RCap 1 (RPlusNot (str "]|#")))
      (RSeq (ROpt (RSeq (RChar "#") (RStarNot (str "]|"))))
      (RSeq (ROpt (RSeq (RChar "|") (RCap 2 (RStarNot (str "]")))))
      (RSeq (RChar "]") (RChar "]"))))))).
  unfold MARKDOWN_LINK_PATTERN. now rewrite !execAll_first_char.
Qed.

Lemma extractLinks_without_bracket_witness :
  extractLinks (str "no links here, only (parentheses) and #tags") = [].
Proof. apply extractLinks_without_bracket. reflexivity. Defined.

Lemma wikilinkOf_In (cs : captures) (link : ExtractedLink) :
  In link (wikilinkOf cs) ->
  exists g1, capture 1 cs = Some g1 /\ target link = withMd (trim g1)
             /\ alias link = setIfTruthy (option_map trim (capture 2 cs)).
Proof.
  unfold wikilinkOf. destruct (capture 1 cs) as [g1|]; [|intros []].
  destruct (truthy g1); [|intros []]. intros [<-|[]]. now exists g1.
Qed.

Lemma markdownLinkOf_In (cs : captures) (link : ExtractedLink) :
  In link (markdownLinkOf cs) ->
  exists g2, capture 2 cs = Some g2
             /\ target link = (if startsWith (trim g2) (str "./")
                               then sliceFrom 2 (trim g2) else trim g2)
             /\ alias link = setIfTruthy (option_map trim (capture 1 cs)).
Proof.
  unfold markdownLinkOf. destruct (capture 2 cs) as [g2|]; [|intros []].
  destruct (truthy g2); [|intros []]. intros [<-|[]]. now exists g2.
Qed.

(** Every link comes from a match of one of the two patterns. *)
Lemma extractLinks_In (content : jstring) (link : ExtractedLink) :
  In link (extractLinks content) ->
  (exists cs, In cs (execAll WIKILINK_PATTERN 0 content) /\ In link (wikilinkOf cs))
  \/ (exists cs, In cs (execAll MARKDOWN_LINK_PATTERN 0 content)
                 /\ In link (markdownLinkOf cs)).
Proof.
  unfold extractLinks. rewrite in_app_iff, !in_flat_map. tauto.
Qed.

Lemma extractLinks_target_ends (content : jstring) (link : ExtractedLink) :
  In link (extractLinks content) -> endsWith (target link) md = true.
Proof.
  intros H. apply extractLinks_In in H as [(cs & Hcs & H)|(cs & Hcs & H)].
  - apply wikilinkOf_In in H as (g1 & _ & -> & _). apply withMd_endsWith.
  - apply markdownLinkOf_In in H as (g2 & Hg & -> & _).
    apply execAll_In in Hcs as (b & h & rest & _ & M).
    apply markdown_match in M as (g1 & p & _ & Hg2 & _ & _).
    rewrite Hg in Hg2. injection Hg2 as ->.
    destruct (trim_md p) as [q ->].
    destruct (startsWith (q ++ md) (str "./")) eqn:S; [|apply endsWith_app].
    apply startsWith_spec in S as [r S].
    destruct q as [|x [|y q]]; try discriminate.
    injection S as -> -> <-. apply endsWith_app.
Qed.

(** Every raw link has a target that ends in [.md]; normalizing it
    again, as [resolveLink] does, changes nothing. *)
Theorem extractLinks_targets_md (content : jstring) :
  Forall (fun link => endsWith (target link) md = true
                      /\ withMd (target link) = target link)
         (extractLinks content).
Proof.
  apply Forall_forall. intros link H.
  pose proof (extractLinks_target_ends content link H) as E.
  split; [exact E|]. unfold withMd. now rewrite E.
Qed.

(** The target of a bracket link holds none of the characters that end
    it in the pattern: no [#], no [|], no closing bracket. *)
Theorem wikilink_targets_clean (content : jstring) :
  Forall (fun link => Forall (fun c => chr_in c (str "]|#") = false) (target link))
         (flat_map wikilinkOf (execAll WIKILINK_PATTERN 0 content)).
Proof.
  apply Forall_forall. intros link H. apply in_flat_map in H as (cs & Hcs & H).
  apply wikilinkOf_In in H as (g1 & Hg & -> & _).
  apply execAll_In in Hcs as (b & h & rest & _ & M).
  apply wikilink_match in M as (g & Hg' & _ & F).
  rewrite Hg in Hg'. injection Hg' as <-.
  apply (trim_Forall _ _) in F. unfold withMd.
  destruct (endsWith (trim g1) md); [exact F|].
  apply Forall_app. split; [exact F|]. repeat constructor.
Qed.

Lemma setIfTruthy_Some (o : option jstring) (a : jstring) :
  setIfTruthy o = Some a -> o = Some a /\ a <> [].
Proof.
  unfold setIfTruthy. destruct o as [s|]; simpl; [|discriminate].
  destruct s; simpl; [discriminate|]. intros [= <-]. now split.
Qed.

(** An alias, when a raw link has one, is not empty and is trimmed; the
    same holds for the label of an edge of a built graph. *)
Theorem aliases_trimmed (content : jstring) (v : Vault) :
  Forall (fun link => forall a, alias link = Some a -> a <> [] /\ trim a = a)
         (extractLinks content)
  /\ Forall (fun e => forall a, edgeLabel e = Some a -> a <> [] /\ trim a = a)
            (edges (getGraph v)).
Proof.
  assert (L : forall content link a,
            In link (extractLinks content) -> alias link = Some a ->
            a <> [] /\ trim a = a).
  { intros c link a H Ha.
    assert (exists o, alias link = setIfTruthy (option_map trim o)) as [o Ho].
    { apply extractLinks_In in H as [(cs & _ & H)|(cs & _ & H)].
      - apply wikilinkOf_In in H as (g & _ & _ & H). eauto.
      - apply markdownLinkOf_In in H as (g & _ & _ & H). eauto. }
    rewrite Ho in Ha. apply setIfTruthy_Some in Ha as [Ha Hne]. split; [exact Hne|].
    destruct o as [s|]; [|discriminate]. injection Ha as <-. apply trim_idem. }
  split; apply Forall_forall.
  - intros link H a Ha. eapply L; eauto.
  - intros e He a Ha. rewrite getGraph_spec in He. simpl in He.
    apply allEdges_In in He as (_ & (c & l & _ & Hl & _ & Hlab) & _).
    rewrite Hlab in Ha. apply setIfTruthy_Some in Ha as [Ha _]. eapply L; eauto.
Qed.

Lemma aliases_trimmed_witness :
  str "the note" <> [] /\ trim (str "the note") = str "the note".
Proof.
  pose proof (proj1 (aliases_trimmed (str "[[Note|  the note ]]") (vaultOf []))) as H.
  rewrite Forall_forall in H.
  apply (H {| target := str "Note.md"; alias := Some (str "the note") |}).
  - vm_compute. now left.
  - reflexivity.
Defined.

(** ** what [getAllNotes] lists *)

Lemma scanEntry_In (allowed : jstring -> bool) :
  forall (entry : DirEntry) (relativePath p : jstring),
    In p (scanEntry allowed relativePath entry) ->
    allowed p = true /\ (endsWith p md || endsWith p markdown) = true
    /\ (truthy relativePath = true -> exists rest, p = relativePath ++ str "/" ++ rest).
Proof.
  fix IH 1. intros entry rel p.
  destruct entry as [name|name entries|name]; cbn [scanEntry entryName];
    set (erp := if truthy rel then rel ++ str "/" ++ name else name).
  - destruct (allowed erp) eqn:A; cbn [negb]; [|intros []].
    destruct (endsWith name md || endsWith name markdown) eqn:E; [|intros []].
    intros [<-|[]]. split; [exact A|]. subst erp. destruct (truthy rel) eqn:T.
    + split; [|intros _; now exists name].
      apply orb_true_iff in E. apply orb_true_iff.
      destruct E as [E|E]; [left|right]; apply endsWith_spec in E as [r ->];
        apply endsWith_spec; exists (rel ++ str "/" ++ r); now rewrite <- !app_assoc.
    + split; [exact E|discriminate].
  - destruct (allowed erp); cbn [negb]; [|intros []].
    destruct (allowed (erp ++ str "/test.md")); cbn [negb]; [|intros []].
    assert (T : forall q, In q (flat_map (scanEntry allowed erp) entries) ->
                allowed q = true /\ (endsWith q md || endsWith q markdown) = true
                /\ (truthy erp = true -> exists rest, q = erp ++ str "/" ++ rest)).
    { induction entries as [|e es IHes]; simpl; [intros q []|].
      intros q Hq. apply in_app_iff in Hq as [Hq|Hq]; [|now apply IHes].
      exact (IH e erp q Hq). }
    intros Hp. destruct (T p Hp) as (H1 & H2 & H3). split; [exact H1|].
    split; [exact H2|]. intros Tr. subst erp. rewrite Tr in H3.
    destruct H3 as [rest H3]; [now destruct rel|].
    exists (name ++ str "/" ++ rest). rewrite H3. now rewrite <- !app_assoc.
  - destruct (negb (allowed erp)); intros [].
Qed.

(** Every note [getAllNotes] lists is allowed by the path filter and
    ends in [.md] or in [.markdown]. *)
Theorem getAllNotes_allowed (v : Vault) :
  Forall (fun p => isAllowed v p = true
                   /\ (endsWith p md || endsWith p markdown) = true)
         (getAllNotes v).
Proof.
  apply Forall_forall. intros p H. unfold getAllNotes, scanDirectory in H.
  apply in_flat_map in H as (e & _ & H).
  now apply scanEntry_In in H as (H1 & H2 & _).
Qed.

(** ** resolution goes by the file name *)

(** With [matchedSlash] false the scan stops at the first slash. *)
Lemma scanBase_stops (a b acc : jstring) :
  scanBase (a ++ slash :: b) false acc = scanBase a false acc.
Proof.
  revert acc. induction a as [|c a IH]; intros acc; simpl; [reflexivity|].
  destruct (Ascii.eqb c slash); [reflexivity|apply IH].
Qed.

(** Putting a directory in front of a path that does not end with a
    slash does not change its base name. *)
Lemma basename_under_dir (d r : jstring) (c : ascii) :
  Ascii.eqb c slash = false ->
  basename (d ++ str "/" ++ r ++ [c]) = basename (r ++ [c]).
Proof.
  intros H. unfold basename. rewrite !rev_app_distr. simpl. rewrite H.
  rewrite <- !app_assoc. simpl.
  rewrite scanBase_stops. destruct (scanBase_acc (rev r) false [c]) as [x Hx].
  reflexivity.
Qed.

(** [find] finds nothing in a list no element of which passes the
    test. *)
Lemma find_nothing {A : Type} (test : A -> bool) (xs : list A) :
  (forall x, In x xs -> test x = false) -> find test xs = None.
Proof.
  induction xs as [|a xs IH]; intros H; simpl; [reflexivity|].
  rewrite (H a (or_introl eq_refl)). apply IH. intros x Hx. apply H. now right.
Qed.

(** On ASCII text [resolveLink] decides by the file name alone: what it
    returns is a known note whose file name is that of the target when
    case is ignored, and it returns nothing exactly when no known note
    has that file name.  The directories written in the target only
    choose among such notes. *)
Theorem resolveLink_by_filename (t : jstring) (S : JsSet.t) (d : jstring) :
  let sameName := fun note =>
    toLowerCase (basename note) = toLowerCase (basename (withMd t)) in
  isAscii t = true -> Forall (fun note => isAscii note = true) S ->
  (forall r, resolveLink t S d = Some r -> In r S /\ sameName r)
  /\ (resolveLink t S d = None <-> forall note, In note S -> ~ sameName note).
Proof.
  intros sameName _ _. subst sameName. cbv beta.
  destruct (withMd_last t) as [q Hq].
  assert (Some_ok : forall r, resolveLink t S d = Some r ->
            In r S /\ toLowerCase (basename r) = toLowerCase (basename (withMd t))).
  { intros r H. destruct (resolveLink_cases _ _ _ _ H) as [Hin Hc]. split; [exact Hin|].
    destruct Hc as [->|[->|[Hc|Hc]]]; trivial.
    - rewrite Hq. now rewrite basename_under_dir.
    - now rewrite !basename_lower, Hc. }
  split; [exact Some_ok|]. split.
  - intros HN note Hin Hsame. unfold resolveLink in HN.
    destruct (JsSet.has S (withMd t)); [discriminate|].
    destruct (truthy d && JsSet.has S _); [discriminate|].
    rewrite resolveScan_first_filename in HN.
    apply (find_none _ _ HN) in Hin as HN'. clear HN. rename HN' into HN.
    cbv beta in HN.
    rewrite Hsame, streq_refl in HN. discriminate.
  - intros H. destruct (resolveLink t S d) as [r|] eqn:R; [|reflexivity].
    destruct (Some_ok r eq_refl) as [Hin Hs]. now destruct (H r Hin).
Qed.

Lemma resolveLink_by_filename_witness :
  In (str "Notes/Todo.md") [str "Notes/Todo.md"]
  /\ toLowerCase (basename (str "Notes/Todo.md"))
     = toLowerCase (basename (withMd (str "elsewhere/todo"))).
Proof.
  apply (proj1 (resolveLink_by_filename (str "elsewhere/todo") [str "Notes/Todo.md"] []
                  eq_refl ltac:(repeat constructor))).
  vm_compute. reflexivity.
Defined.

(** ** the nodes of a built graph *)

(** A built graph has one node per listed note: the identifiers of the
    nodes are pairwise different, they are the listed notes, and when
    no note is listed twice they come in the order of the listing. *)
Theorem getGraph_nodes (v : Vault) :
  NoDup (map id (nodes (getGraph v)))
  /\ (forall p, In p (map id (nodes (getGraph v))) <-> In p (getAllNotes v))
  /\ (NoDup (getAllNotes v) -> map id (nodes (getGraph v)) = getAllNotes v).
Proof.
  rewrite getGraph_ids. split; [apply ofList_NoDup|]. split.
  - intros p. apply ofList_In.
  - apply ofList_NoDup_id.
Qed.

Lemma getGraph_nodes_witness :
  map id (nodes (getGraph chainABC)) = getAllNotes chainABC.
Proof.
  apply (proj2 (proj2 (getGraph_nodes chainABC))).
  vm_compute. repeat constructor; simpl; intuition discriminate.
Defined.

(** ** the edges of a note are its resolved outlinks *)

Lemma processNote_from (v : Vault) (S : JsSet.t) (q : jstring) (e : GraphEdge) :
  In e (snd (processNote v S q)) -> from e = q.
Proof.
  unfold processNote. destruct (readFile v q); simpl; [|intros []].
  intros H. apply in_flat_map in H as (l & _ & H). now apply edgeOf_In in H.
Qed.

Lemma filter_all {A : Type} (f : A -> bool) (l : list A) :
  (forall x, In x l -> f x = true) -> filter f l = l.
Proof.
  induction l as [|a l IH]; intros H; simpl; [reflexivity|].
  rewrite (H a (or_introl eq_refl)). f_equal. apply IH. intros x Hx. apply H. now right.
Qed.

Lemma filter_none {A : Type} (f : A -> bool) (l : list A) :
  (forall x, In x l -> f x = false) -> filter f l = [].
Proof.
  induction l as [|a l IH]; intros H; simpl; [reflexivity|].
  rewrite (H a (or_introl eq_refl)). apply IH. intros x Hx. apply H. now right.
Qed.

(** The edges that start at a note listed once are the edges of its own
    scan. *)
Lemma edges_from_note (v : Vault) (S : JsSet.t) (notes : list jstring) (p : jstring) :
  NoDup notes -> In p notes ->
  filter (fun e => streq (from e) p) (flat_map (fun q => snd (processNote v S q)) notes)
  = snd (processNote v S p).
Proof.
  induction notes as [|q notes IH]; intros Hn Hp; [destruct Hp|].
  inversion Hn as [|? ? Hq Hn']; subst. simpl. rewrite filter_app.
  destruct Hp as [->|Hp].
  - rewrite filter_all.
    + rewrite filter_none; [apply app_nil_r|].
      intros e He. apply in_flat_map in He as (q & Hq' & He).
      apply processNote_from in He. destruct (streq (from e) p) eqn:E; [|reflexivity].
      apply streq_eq in E. congruence.
    + intros e He. apply processNote_from in He. rewrite He. apply streq_refl.
  - rewrite IH by assumption. rewrite filter_none; [reflexivity|].
    intros e He. apply processNote_from in He. destruct (streq (from e) p) eqn:E; [|reflexivity].
    apply streq_eq in E. congruence.
Qed.

(** For a listed note [p] that ends in [.md], in a vault that lists no
    note twice, [getOutlinks] answers for [p] itself, and the edges of
    the built graph that start at [p] are, in order and with their
    aliases, the outlinks that are resolved and do not point at [p]. *)
Theorem graph_edges_are_outlinks (v : Vault) (p : jstring) :
  NoDup (getAllNotes v) -> In p (getAllNotes v) -> endsWith p md = true ->
  olPath (getOutlinks v p) = p
  /\ map (fun e => (to e, edgeLabel e))
         (filter (fun e => streq (from e) p) (edges (getGraph v)))
     = map (fun o => (olTo o, olAlias o))
           (filter (fun o => resolved o && negb (streq (olTo o) p))
                   (outlinksOf (getOutlinks v p))).
Proof.
  intros Hn Hp He. rewrite getGraph_spec. simpl. unfold allEdges.
  rewrite (edges_from_note _ _ _ _ Hn Hp).
  unfold getOutlinks, processNote.
  assert (W : withMd p = p) by (unfold withMd; now rewrite He).
  rewrite W. assert (Hh : JsSet.has (JsSet.ofList (getAllNotes v)) p = true)
    by (apply has_In, ofList_In, Hp).
  rewrite Hh. destruct (readFile v p) as [content|]; simpl; [|now split].
  split; [reflexivity|].
  induction (extractLinks content) as [|l ls IH]; [reflexivity|].
  cbn [flat_map map filter]. rewrite map_app, IH. unfold edgeOf. cbn [resolved olTo].
  destruct (resolveLink (target l) (JsSet.ofList (getAllNotes v)) (sourceDirOf p))
    as [r|] eqn:R; [|reflexivity].
  rewrite (resolveLink_truthy _ _ _ _ R). cbn [andb].
  destruct (streq r p); reflexivity.
Qed.

Lemma graph_edges_are_outlinks_witness :
  olPath (getOutlinks chainABC (str "B.md")) = str "B.md".
Proof.
  apply (graph_edges_are_outlinks chainABC (str "B.md")).
  - vm_compute. repeat constructor; simpl; intuition discriminate.
  - vm_compute. right. now left.
  - reflexivity.
Defined.

(** [getOutlinks] reports the raw links of the note it reads, one entry
    per link and in their order: for a link that resolves, the note it
    resolves to, marked resolved; for a link that does not, the raw
    target of the link, marked unresolved; each with the alias of the
    link.  So a resolved entry names a listed note, and an unresolved
    one a target that ends in [.md] and is no listed note. *)
Theorem getOutlinks_entries (v : Vault) (path : jstring) :
  let result := getOutlinks v path in
  let known := JsSet.ofList (getAllNotes v) in
  (forall content, readFile v (olPath result) = Some content ->
     outlinksOf result
     = map (fun link =>
              match resolveLink (target link) known (sourceDirOf (olPath result)) with
              | Some note => {| olTo := note; resolved := true; olAlias := alias link |}
              | None => {| olTo := target link; resolved := false;
                           olAlias := alias link |}
              end)
           (extractLinks content))
  /\ Forall (fun o => if resolved o
                      then In (olTo o) (getAllNotes v)
                      else endsWith (olTo o) md = true /\ ~ In (olTo o) (getAllNotes v))
            (outlinksOf result).
Proof.
  intros result known. subst result known.
  unfold getOutlinks. set (actual := if JsSet.has _ _ then _ else _).
  destruct (readFile v actual) as [content|] eqn:R; cbn [olPath outlinksOf].
  - split.
    + intros c. rewrite R. intros [= <-]. apply map_ext_in. intros l Hl.
      rewrite (extractLinks_alias_set content l Hl).
      destruct (resolveLink (target l) _ _) as [r|] eqn:E; [|reflexivity].
      now rewrite (resolveLink_truthy _ _ _ _ E).
    + apply Forall_forall. intros o Ho. apply in_map_iff in Ho as (l & <- & Hl). simpl.
      destruct (resolveLink (target l) _ _) as [r|] eqn:E.
      * rewrite (resolveLink_truthy _ _ _ _ E). apply resolveLink_In in E.
        apply ofList_In. exact E.
      * pose proof (extractLinks_target_ends content l Hl) as Fe.
        assert (Fw : withMd (target l) = target l) by (unfold withMd; now rewrite Fe).
        split; [exact Fe|].
        intros Hin. unfold resolveLink in E. rewrite Fw in E.
        apply ofList_In, has_In in Hin. rewrite Hin in E. discriminate.
  - split; [|constructor]. intros c. rewrite R. discriminate.
Qed.

Lemma getOutlinks_entries_witness :
  outlinksOf (getOutlinks chainABC (str "A"))
  = [ {| olTo := str "B.md"; resolved := true; olAlias := None |} ].
Proof.
  apply (proj1 (getOutlinks_entries chainABC (str "A")) (str "[[B]]")). reflexivity.
Defined.

(** ** the label of a note that ends in [.md] *)

(** Once the suffix is matched or missed ([extIdx] negative) the loop
    of [basename(path, suffix)] runs over the characters that are no
    slash without changing its state. *)
Lemma scanSuffix_run (a rest suffix : jstring) (i extIdx e f : Z) :
  Forall (fun c => Ascii.eqb c slash = false) a ->
  (extIdx < 0)%Z -> f <> (-1)%Z ->
  scanSuffix (a ++ rest) i suffix false extIdx e f
  = scanSuffix rest (i - Z.of_nat (length a)) suffix false extIdx e f.
Proof.
  intros Ha Hx Hf. revert i. induction Ha as [|c a Hc Ha IH]; intros i.
  - simpl. now rewrite Z.sub_0_r.
  - cbn [app scanSuffix]. rewrite Hc.
    destruct (Z.eqb_spec f (-1)) as [|_]; [contradiction|].
    destruct (Z.geb_spec extIdx 0) as [|_]; [lia|].
    rewrite IH. f_equal. cbn [length]. lia.
Qed.

(** One turn of the loop on a character that is no slash and matches
    the suffix at [extIdx]. *)
Lemma scanSuffix_match (c : ascii) (rp suffix : jstring) (i extIdx e f : Z)
    (ms ms' : bool) (e' f' : Z) :
  Ascii.eqb c slash = false ->
  (ms', f') = (if (f =? -1)%Z then (false, (i + 1)%Z) else (ms, f)) ->
  (0 <= extIdx)%Z ->
  Ascii.eqb c (nth (Z.to_nat extIdx) suffix zero) = true ->
  e' = (if (extIdx - 1 =? -1)%Z then i else e) ->
  scanSuffix (c :: rp) i suffix ms extIdx e f
  = scanSuffix rp (i - 1) suffix ms' (extIdx - 1) e' f'.
Proof.
  intros Hc Hf Hx Hm ->. cbn [scanSuffix]. rewrite Hc.
  destruct (f =? -1)%Z; injection Hf as -> ->;
    (destruct (Z.geb_spec extIdx 0) as [_|]; [|lia]); rewrite Hm;
    now destruct (extIdx - 1 =? -1)%Z.
Qed.

(** The loop ends at the slash that closes the directory, or at the
    head of the path. *)
Lemma scanSuffix_dir (dir suffix : jstring) (i extIdx e f : Z) :
  (dir = [] \/ exists d, dir = d ++ [slash]) ->
  i = (Z.of_nat (length dir) - 1)%Z ->
  scanSuffix (rev dir) i suffix false extIdx e f = (Z.of_nat (length dir), e, f).
Proof.
  intros [->|[d ->]] ->; [reflexivity|].
  rewrite rev_app_distr. cbn [rev app scanSuffix]. rewrite Ascii.eqb_refl. cbn [negb].
  f_equal. f_equal. lia.
Qed.

(** [basename(dir + stem + '.md', '.md')] is [stem], when [stem] is a
    file name and [dir] is empty or ends with a slash. *)
Lemma basenameExt_md (dir stem : jstring) :
  stem <> [] -> Forall (fun c => Ascii.eqb c slash = false) stem ->
  (dir = [] \/ exists d, dir = d ++ [slash]) ->
  basenameExt (dir ++ stem ++ md) md = stem.
Proof.
  intros Hne Hs Hd. unfold basenameExt.
  set (path := dir ++ stem ++ md).
  assert (Hlen : length path = length dir + length stem + 3).
  { subst path. rewrite !length_app. simpl. lia. }
  assert (L : ((0 <? length md) && (length md <=? length path)) = true).
  { apply andb_true_iff. split; [reflexivity|]. apply Nat.leb_le. simpl. lia. }
  rewrite L.
  assert (N : streq md path = false).
  { destruct (streq md path) eqn:E; [|reflexivity]. apply streq_eq in E.
    apply (f_equal (@length ascii)) in E. rewrite Hlen in E. simpl in E.
    destruct stem; [contradiction|simpl in E; lia]. }
  rewrite N.
  assert (R : rev path = "d"%char :: "m"%char :: "."%char :: rev stem ++ rev dir).
  { subst path. rewrite rev_app_distr, rev_app_distr, <- app_assoc. reflexivity. }
  rewrite R. set (n := Z.of_nat (length path)).
  assert (Hn : n = (Z.of_nat (length dir) + Z.of_nat (length stem) + 3)%Z) by (subst n; lia).
  change (Z.of_nat (length md) - 1)%Z with 2%Z.
  rewrite scanSuffix_match with (ms' := false) (e' := (-1)%Z) (f' := n);
    [|reflexivity|cbn [Z.eqb Pos.eqb]; f_equal; lia|lia|reflexivity|reflexivity].
  rewrite scanSuffix_match with (ms' := false) (e' := (-1)%Z) (f' := n);
    [|reflexivity|destruct (Z.eqb_spec n (-1)); [lia|reflexivity]|lia|reflexivity
     |reflexivity].
  rewrite scanSuffix_match with (ms' := false) (e' := (n - 1 - 1 - 1)%Z) (f' := n);
    [|reflexivity|destruct (Z.eqb_spec n (-1)); [lia|reflexivity]|lia|reflexivity
     |reflexivity].
  rewrite scanSuffix_run; [|now apply Forall_rev|lia|lia].
  rewrite length_rev.
  rewrite scanSuffix_dir by (trivial; lia).
  assert (Hpos : 0 < length stem) by (destruct stem; [contradiction|simpl; lia]).
  destruct (Z.eqb_spec (Z.of_nat (length dir)) (n - 1 - 1 - 1)) as [|_]; [lia|].
  destruct (Z.eqb_spec (n - 1 - 1 - 1) (-1)) as [|_]; [lia|].
  unfold slice. rewrite Nat2Z.id.
  replace (Z.to_nat (n - 1 - 1 - 1) - length dir) with (length stem) by lia.
  subst path. rewrite skipn_app, skipn_all, Nat.sub_diag. simpl.
  rewrite firstn_app, firstn_all, Nat.sub_diag. simpl. apply app_nil_r.
Qed.

(** In a built graph the label of a note [dir/stem.md] is [stem]. *)
Theorem getGraph_label_md (v : Vault) (dir stem : jstring) :
  stem <> [] -> Forall (fun c => Ascii.eqb c slash = false) stem ->
  (dir = [] \/ exists d, dir = d ++ [slash]) ->
  Forall (fun n => id n = dir ++ stem ++ md -> label n = stem) (nodes (getGraph v)).
Proof.
  intros H1 H2 H3. rewrite getGraph_spec. simpl.
  apply Forall_forall. intros n Hn Hid. apply in_map_iff in Hn as (k & <- & _).
  destruct (tally_fields k (allEdges v (getAllNotes v)) (initNode k)) as (E1 & E2 & _).
  rewrite E1 in Hid. rewrite E2. simpl in *. subst k. now apply basenameExt_md.
Qed.

Lemma getGraph_label_md_witness :
  Forall (fun n => id n = str "docs/" ++ str "bar" ++ md -> label n = str "bar")
         (nodes (getGraph docsVault)).
Proof.
  apply getGraph_label_md.
  - discriminate.
  - repeat constructor.
  - right. now exists (str "docs").
Defined.

(** ** the statistics *)

Lemma filter_length_zero {A : Type} (f : A -> bool) (l : list A) :
  length (filter f l) = 0 <-> forall x, In x l -> f x = false.
Proof.
  split.
  - intros H x Hx. destruct (f x) eqn:E; [|reflexivity].
    assert (Hin : In x (filter f l)) by (apply filter_In; now split).
    destruct (filter f l); [destruct Hin|discriminate].
  - intros H. now rewrite filter_none.
Qed.

(** The orphans are the notes that no edge of the graph touches. *)
Theorem orphans_untouched (v : Vault) (hubCount : option Z) (p : jstring) :
  In p (orphans (getGraphStats v hubCount))
  <-> In p (getAllNotes v)
      /\ forall e, In e (edges (getGraph v)) -> from e <> p /\ to e <> p.
Proof.
  unfold getGraphStats. cbn [orphans]. rewrite getGraph_spec. cbn [nodes edges].
  set (es := allEdges v (getAllNotes v)).
  rewrite in_map_iff. split.
  - intros (n & <- & Hn). apply filter_In in Hn as [Hn H0].
    apply in_map_iff in Hn as (k & <- & Hk). apply Nat.eqb_eq in H0.
    destruct (tally_fields k es (initNode k)) as (E1 & _ & _ & _ & E5).
    rewrite E1. simpl. split; [now apply ofList_In|].
    rewrite E5 in H0. simpl in H0.
    assert (F : countFrom k es = 0) by lia. assert (T : countTo k es = 0) by lia.
    unfold countFrom in F. unfold countTo in T.
    rewrite filter_length_zero in F, T.
    intros e He. split; intros Heq.
    + specialize (F e He). cbv beta in F. now rewrite Heq, streq_refl in F.
    + specialize (T e He). cbv beta in T. now rewrite Heq, streq_refl in T.
  - intros [Hp H]. exists (tally p es (initNode p)).
    destruct (tally_fields p es (initNode p)) as (E1 & _ & _ & _ & E5).
    split; [exact E1|]. apply filter_In. split.
    + apply in_map_iff. exists p. split; [reflexivity|now apply ofList_In].
    + apply Nat.eqb_eq. rewrite E5. simpl.
      rewrite countFrom_zero by (intros e He; now apply H).
      rewrite countTo_zero by (intros e He; now apply H). reflexivity.
Qed.

Lemma orphans_untouched_witness :
  In (str "x.markdown")
     (getAllNotes (vaultOf [note "x.markdown" ""; note "a.md" "[[x]] [[x.markdown]]"])).
Proof.
  apply (proj1 (orphans_untouched
                  (vaultOf [note "x.markdown" ""; note "a.md" "[[x]] [[x.markdown]]"])
                  None (str "x.markdown"))).
  vm_compute. now left.
Defined.

Lemma pushNew_NoDup (l : list jstring) (x : jstring) : NoDup l -> NoDup (pushNew l x).
Proof.
  intros H. unfold pushNew. destruct (existsb (streq x) l) eqn:E; [exact H|].
  apply (add_NoDup l x) in H. unfold JsSet.add, JsSet.has in H. now rewrite E in H.
Qed.

(** The names [getGraphStats] reports as unresolved, for a known set and
    a listing. *)
Definition unresolvedOf (v : Vault) (S : JsSet.t) (notes : list jstring)
    (start : list jstring) : list jstring :=
  fold_left
    (fun unresolved notePath =>
       match readFile v notePath with
       | Some content =>
           fold_left (scanUnresolved S (sourceDirOf notePath)) (extractLinks content)
                     unresolved
       | None => unresolved
       end)
    notes start.

Lemma scanAll_spec (S : JsSet.t) (d : jstring) (ls : list ExtractedLink)
    (u : list jstring) :
  (NoDup u -> NoDup (fold_left (scanUnresolved S d) ls u))
  /\ forall x, In x (fold_left (scanUnresolved S d) ls u)
               <-> In x u \/ exists l, In l ls /\ resolveLink (target l) S d = None
                                        /\ x = stripMd (target l).
Proof.
  revert u. induction ls as [|l ls IH]; intros u; simpl.
  - split; [trivial|]. intros x. split; [now left|]. intros [H|(l & [] & _)]. exact H.
  - destruct (IH (scanUnresolved S d u l)) as [IHn IHi]. split.
    + intros Hu. apply IHn. unfold scanUnresolved.
      destruct (resolveLink (target l) S d) as [r|]; [destruct (truthy r)|];
        trivial; now apply pushNew_NoDup.
    + intros x. rewrite IHi. unfold scanUnresolved.
      destruct (resolveLink (target l) S d) as [r|] eqn:R.
      * rewrite (resolveLink_truthy _ _ _ _ R). split.
        -- intros [H|(l' & H1 & H2 & H3)]; [now left|]. right. exists l'. auto.
        -- intros [H|(l' & [<-|H1] & H2 & H3)]; [now left|congruence|].
           right. now exists l'.
      * rewrite pushNew_In. split.
        -- intros [[H|H]|(l' & H1 & H2 & H3)]; [now left| |].
           ++ right. exists l. auto.
           ++ right. exists l'. auto.
        -- intros [H|(l' & [<-|H1] & H2 & H3)]; [left; now left|left; now right|].
           right. now exists l'.
Qed.

Lemma unresolvedOf_spec (v : Vault) (S : JsSet.t) (notes : list jstring)
    (u : list jstring) :
  (NoDup u -> NoDup (unresolvedOf v S notes u))
  /\ forall x, In x (unresolvedOf v S notes u)
       <-> In x u
           \/ exists p content l,
                In p notes /\ readFile v p = Some content
                /\ In l (extractLinks content)
                /\ resolveLink (target l) S (sourceDirOf p) = None
                /\ x = stripMd (target l).
Proof.
  unfold unresolvedOf. revert u. induction notes as [|p notes IH]; intros u; simpl.
  - split; [trivial|]. intros x. split; [now left|].
    intros [H|(p & c & l & [] & _)]. exact H.
  - set (u1 := match readFile v p with Some content => _ | None => u end).
    destruct (IH u1) as [IHn IHi].
    assert (U1 : (NoDup u -> NoDup u1)
                 /\ forall x, In x u1
                      <-> In x u \/ exists content l,
                            readFile v p = Some content /\ In l (extractLinks content)
                            /\ resolveLink (target l) S (sourceDirOf p) = None
                            /\ x = stripMd (target l)).
    { subst u1. destruct (readFile v p) as [content|].
      - destruct (scanAll_spec S (sourceDirOf p) (extractLinks content) u) as [A B].
        split; [exact A|]. intros x. rewrite B. split.
        + intros [H|(l & H1 & H2 & H3)]; [now left|]. right. now exists content, l.
        + intros [H|(c & l & [= <-] & H1 & H2 & H3)]; [now left|]. right. now exists l.
      - split; [trivial|]. intros x. split; [now left|].
        intros [H|(c & l & H & _)]; [exact H|discriminate]. }
    destruct U1 as [U1n U1i]. split; [intros Hu; apply IHn, U1n, Hu|].
    intros x. rewrite IHi, U1i. split.
    + intros [[H|(c & l & H1 & H2 & H3 & H4)]|(q & c & l & H0 & H1 & H2 & H3 & H4)].
      * now left.
      * right. exists p, c, l. auto.
      * right. exists q, c, l. auto.
    + intros [H|(q & c & l & [<-|H0] & H1 & H2 & H3 & H4)].
      * left. now left.
      * left. right. now exists c, l.
      * right. now exists q, c, l.
Qed.

(** [unresolvedLinks] holds no name twice, and it holds exactly the
    targets, without their [.md], of the raw links of readable notes
    that do not resolve. *)
Theorem unresolvedLinks_spec (v : Vault) (hubCount : option Z) :
  NoDup (unresolvedLinks (getGraphStats v hubCount))
  /\ forall x, In x (unresolvedLinks (getGraphStats v hubCount))
       <-> exists p content l,
             In p (getAllNotes v) /\ readFile v p = Some content
             /\ In l (extractLinks content)
             /\ resolveLink (target l) (JsSet.ofList (getAllNotes v)) (sourceDirOf p) = None
             /\ x = stripMd (target l).
Proof.
  unfold getGraphStats. cbn [unresolvedLinks]. rewrite getGraph_ids, ofList_idem.
  destruct (unresolvedOf_spec v (JsSet.ofList (getAllNotes v)) (getAllNotes v) [])
    as [A B].
  unfold unresolvedOf in A, B. split; [apply A; constructor|].
  intros x. rewrite B. split; [intros [[]|H]; exact H|now right].
Qed.

Lemma unresolvedLinks_spec_witness :
  In (str "Ghost")
     (unresolvedLinks (getGraphStats (vaultOf [note "a.md" "[[Ghost]] and [[Ghost]]"]) None)).
Proof.
  apply (proj2 (unresolvedLinks_spec (vaultOf [note "a.md" "[[Ghost]] and [[Ghost]]"]) None)).
  exists (str "a.md"), (str "[[Ghost]] and [[Ghost]]"),
         {| target := str "Ghost.md"; alias := None |}.
  repeat split; try reflexivity; vm_compute; now left.
Defined.

(** Most links first. *)
Definition byLinks (a b : GraphNode) : Prop := links b <= links a.

Lemma insertByLinks_perm (n : GraphNode) (l : list GraphNode) :
  Permutation (n :: l) (insertByLinks n l).
Proof.
  induction l as [|m l IH]; simpl; [reflexivity|].
  destruct (links m <=? links n); [reflexivity|].
  rewrite perm_swap. now constructor.
Qed.

Lemma insertByLinks_sorted (n : GraphNode) (l : list GraphNode) :
  StronglySorted byLinks l -> StronglySorted byLinks (insertByLinks n l).
Proof.
  induction 1 as [|m l Hs IH Hm]; simpl; [repeat constructor|].
  destruct (links m <=? links n) eqn:E.
  - apply Nat.leb_le in E. constructor; [now constructor|].
    constructor; [exact E|]. rewrite Forall_forall in *. intros x Hx.
    specialize (Hm x Hx). unfold byLinks in *. lia.
  - apply Nat.leb_gt in E. constructor; [exact IH|].
    rewrite Forall_forall in *. intros x Hx.
    apply (Permutation_in _ (Permutation_sym (insertByLinks_perm n l))) in Hx.
    destruct Hx as [<-|Hx]; [unfold byLinks; lia|now apply Hm].
Qed.

Lemma sortByLinks_perm (l : list GraphNode) : Permutation l (sortByLinks l).
Proof.
  induction l as [|n l IH]; simpl; [reflexivity|].
  rewrite <- insertByLinks_perm. now constructor.
Qed.

Lemma sortByLinks_sorted (l : list GraphNode) : StronglySorted byLinks (sortByLinks l).
Proof.
  induction l as [|n l IH]; simpl; [constructor|]. now apply insertByLinks_sorted.
Qed.

(** Nodes with the same number of links keep their order. *)
Lemma insertByLinks_stable (k : nat) (n : GraphNode) (l : list GraphNode) :
  filter (fun m => links m =? k) (insertByLinks n l)
  = filter (fun m => links m =? k) (n :: l).
Proof.
  induction l as [|m l IH]; [reflexivity|]. cbn [insertByLinks].
  destruct (links m <=? links n) eqn:E; [reflexivity|].
  apply Nat.leb_gt in E. cbn [filter] in *. rewrite IH.
  destruct (links n =? k) eqn:En, (links m =? k) eqn:Em; try reflexivity.
  apply Nat.eqb_eq in En, Em. lia.
Qed.

Lemma sortByLinks_stable (k : nat) (l : list GraphNode) :
  filter (fun m => links m =? k) (sortByLinks l) = filter (fun m => links m =? k) l.
Proof.
  induction l as [|n l IH]; [reflexivity|]. cbn [sortByLinks fold_right].
  fold (sortByLinks l). rewrite insertByLinks_stable. cbn [filter]. now rewrite IH.
Qed.

Lemma sorted_split (l : list GraphNode) (k : nat) :
  StronglySorted byLinks l ->
  forall a b, In a (firstn k l) -> In b (skipn k l) -> links b <= links a.
Proof.
  intros H. revert k. induction H as [|m l Hs IH Hm]; intros k a b Ha Hb.
  - now rewrite firstn_nil in Ha.
  - destruct k as [|k]; [destruct Ha|]. simpl in Ha, Hb. destruct Ha as [<-|Ha].
    + rewrite Forall_forall in Hm. apply Hm.
      rewrite <- (firstn_skipn k l). apply in_or_app. now right.
    + eapply IH; eauto.
Qed.

(** For a hub count that is not negative (10 when none is given), the
    hubs are the nodes with the most links: as many as asked for, or
    all nodes when there are fewer; most links first; no node left out
    has more links than a hub; and among the nodes with the same number
    of links the sort keeps the order of the graph. *)
Theorem hubs_are_top (v : Vault) (hubCount : option Z) :
  let k := match hubCount with Some n => n | None => 10%Z end in
  let stats := getGraphStats v hubCount in
  (0 <= k)%Z ->
  exists top rest,
    Permutation (nodes (getGraph v)) (top ++ rest)
    /\ hubs stats = map (fun n => {| path := id n; connections := links n |}) top
    /\ length (hubs stats) = Nat.min (Z.to_nat k) (totalNodes stats)
    /\ StronglySorted (fun a b => connections b <= connections a) (hubs stats)
    /\ (forall a b, In a top -> In b rest -> links b <= links a)
    /\ (forall c, filter (fun n => links n =? c) (top ++ rest)
                  = filter (fun n => links n =? c) (nodes (getGraph v))).
Proof.
  intros k stats Hk. subst stats. unfold getGraphStats. fold k.
  cbn [hubs totalNodes]. set (g := getGraph v). set (sorted := sortByLinks (nodes g)).
  assert (Hlen : length sorted = length (nodes g)).
  { symmetry. apply Permutation_length, sortByLinks_perm. }
  assert (Hs : sliceTo k sorted = firstn (Nat.min (Z.to_nat k) (length (nodes g))) sorted).
  { unfold sliceTo. destruct (Z.ltb_spec k 0) as [|_]; [lia|]. f_equal. lia. }
  rewrite Hs. set (m := Nat.min (Z.to_nat k) (length (nodes g))).
  exists (firstn m sorted), (skipn m sorted). rewrite firstn_skipn.
  split; [apply sortByLinks_perm|]. split; [reflexivity|]. split; [|split; [|split]].
  - rewrite length_map, length_firstn. lia.
  - assert (S : StronglySorted byLinks (firstn m sorted)).
    { pose proof (sortByLinks_sorted (nodes g)) as H. fold sorted in H.
      rewrite <- (firstn_skipn m sorted) in H.
      clear - H. induction (firstn m sorted) as [|a l IH]; [constructor|].
      simpl in H. inversion H as [|? ? H1 H2]; subst. constructor; [now apply IH|].
      apply Forall_app in H2. tauto. }
    induction S as [|a l S IH F]; simpl; constructor; [exact IH|].
    rewrite Forall_forall in *. intros h Hh. apply in_map_iff in Hh as (b & <- & Hb).
    simpl. now apply F.
  - apply sorted_split, sortByLinks_sorted.
  - intros c. apply sortByLinks_stable.
Qed.

Lemma hubs_are_top_witness :
  length (hubs (getGraphStats chainABC (Some 2%Z))) = 2.
Proof.
  destruct (hubs_are_top chainABC (Some 2%Z) ltac:(simpl; lia))
    as (top & rest & _ & _ & H & _).
  exact H.
Defined.

(** ** backlinks and the [backlinks] counters *)

(** The nodes a backlinks query designates. *)
Definition designates (normalizedPath : jstring) (n : GraphNode) : bool :=
  streq (id n) normalizedPath || endsWith (id n) (str "/" ++ normalizedPath).

(** The backlinks [getBacklinks] reports for a path are as many as the
    [backlinks] counters of the nodes the path designates add up to;
    when the path designates no node, there are none. *)
Theorem getBacklinks_count (v : Vault) (path : jstring) :
  let g := getGraph v in
  length (backlinksOf (getBacklinks v path))
  = list_sum (map backlinks (filter (designates (withMd path)) (nodes g)))
  /\ ((forall n, In n (nodes g) -> designates (withMd path) n = false) ->
      backlinksOf (getBacklinks v path) = []).
Proof.
  intros g.
  assert (Main : length (backlinksOf (getBacklinks v path))
                 = list_sum (map backlinks (filter (designates (withMd path)) (nodes g)))).
  { unfold getBacklinks. cbn [backlinksOf]. rewrite length_map. subst g.
    rewrite getGraph_spec. cbn [nodes edges].
    set (es := allEdges v (getAllNotes v)). set (np := withMd path).
    set (P := fun k => streq k np || endsWith k (str "/" ++ np)).
    assert (F : filter (designates np) (map (fun k => tally k es (initNode k))
                                            (JsSet.ofList (getAllNotes v)))
                = map (fun k => tally k es (initNode k))
                      (filter P (JsSet.ofList (getAllNotes v)))).
    { induction (JsSet.ofList (getAllNotes v)) as [|k ks IH]; [reflexivity|].
      cbn [map filter]. rewrite IH. unfold designates at 1.
      destruct (tally_fields k es (initNode k)) as (-> & _). simpl id.
      fold (P k). now destruct (P k). }
    rewrite F, map_map.
    rewrite <- (sum_counts to (filter P (JsSet.ofList (getAllNotes v)))
                  (filter (isBacklinkTo np) es)).
    - f_equal. apply map_ext_in. intros k Hk. apply filter_In in Hk as [_ Hk].
      destruct (tally_fields k es (initNode k)) as (_ & _ & _ & -> & _). simpl.
      unfold countTo. f_equal. clear -Hk.
      induction es as [|e es IH]; [reflexivity|]. cbn [filter].
      assert (B : isBacklinkTo np e = P (to e)) by reflexivity.
      destruct (streq (to e) k) eqn:E.
      + rewrite B. apply streq_eq in E as E'. rewrite E', Hk.
        cbn [filter]. rewrite E. now rewrite IH.
      + destruct (isBacklinkTo np e); [cbn [filter]; rewrite E|]; exact IH.
    - apply NoDup_filter, ofList_NoDup.
    - intros e He. apply filter_In in He as [He Hb]. apply filter_In. split.
      + now apply allEdges_to_In in He.
      + exact Hb. }
  split; [exact Main|]. intros H. rewrite filter_none in Main by exact H.
  apply length_zero_iff_nil. rewrite Main. reflexivity.
Qed.

Lemma getBacklinks_count_witness :
  backlinksOf (getBacklinks chainABC (str "nowhere")) = [].
Proof.
  apply (proj2 (getBacklinks_count chainABC (str "nowhere"))).
  intros n Hn. vm_compute in Hn. decompose [or] Hn; subst; try contradiction; reflexivity.
Defined.

(** ** more on the traversal of [getLocalGraph] *)

Section BfsMore.
Variable es : list GraphEdge.
Variable c : jstring.
Variable depth : Z.

Lemma discover_fst (hit : bool) (x : jstring) (d : Z) (st : BfsState) :
  incl (fst st) (fst (discover hit x d st))
  /\ (NoDup (fst st) -> NoDup (fst (discover hit x d st))).
Proof.
  unfold discover. destruct (hit && negb (JsSet.has (fst st) x)) eqn:E.
  - apply andb_true_iff in E as [_ E]. apply negb_true_iff in E. simpl. split.
    + apply incl_appl, incl_refl.
    + intros H. apply (add_NoDup (fst st) x) in H. unfold JsSet.add in H.
      now rewrite E in H.
  - split; [apply incl_refl|trivial].
Qed.

Lemma visitEdges_fst (u : jstring) (d : Z) (l : list GraphEdge) (st : BfsState) :
  incl (fst st) (fst (fold_left (visitEdge u d) l st))
  /\ (NoDup (fst st) -> NoDup (fst (fold_left (visitEdge u d) l st))).
Proof.
  revert st. induction l as [|e l IH]; intros st; simpl.
  - split; [apply incl_refl|trivial].
  - rewrite visitEdge_discover.
    set (st1 := discover (streq (from e) u) (to e) d st).
    set (st2 := discover (streq (to e) u) (from e) d st1).
    destruct (discover_fst (streq (from e) u) (to e) d st) as [I1 N1].
    destruct (discover_fst (streq (to e) u) (from e) d st1) as [I2 N2].
    destruct (IH st2) as [I3 N3]. fold st1 in I1, N1. fold st2 in I2, N2. split.
    + eapply incl_tran; [exact I1|]. eapply incl_tran; [exact I2|exact I3].
    + auto.
Qed.

(** The traversal never drops a node it has included. *)
Lemma bfs_incl (n : nat) (st : BfsState) :
  bfsMeasure es st < n -> incl (fst st) (bfs depth es st).
Proof.
  revert st. induction n as [|n IH]; intros [inc q] Hn; [lia|].
  destruct q as [|[u k] q]; simp bfs; [apply incl_refl|].
  destruct (k >=? depth)%Z.
  - apply (IH (inc, q)). unfold bfsMeasure in *. simpl in *. lia.
  - eapply incl_tran; [apply (proj1 (visitEdges_fst u k es (inc, q)))|].
    apply IH.
    pose proof (visitEdges_measure es es u k (inc, q) (incl_refl _)) as M.
    unfold bfsMeasure in *. simpl in *. lia.
Qed.

(** The included nodes are pairwise different, and no entry has a depth
    as large as the number of entries. *)
Record Inv2 (done q : list (jstring * Z)) : Prop := {
  inv_nodup : NoDup (map fst (enqueued done q));
  inv_below : forall w k, In (w, k) (enqueued done q) ->
                (k < Z.of_nat (length (enqueued done q)))%Z
}.

Lemma bfs_Inv2 (n : nat) (st : BfsState) (done : list (jstring * Z)) :
  bfsMeasure es st < n ->
  fst st = map fst (done ++ snd st) -> Inv es c depth done (snd st) -> Inv2 done (snd st) ->
  exists done', bfs depth es st = map fst done'
                /\ Inv es c depth done' [] /\ Inv2 done' [].
Proof.
  revert st done. induction n as [|n IH]; intros [inc q] done Hn Hinc HI H2; [lia|].
  simpl in Hinc, HI, H2. destruct q as [|[u k] q].
  - simp bfs. exists done. rewrite app_nil_r in Hinc.
    split; [exact Hinc|split; assumption].
  - simp bfs.
    assert (Same : (done ++ [(u, k)]) ++ q = done ++ (u, k) :: q)
      by now rewrite <- app_assoc.
    destruct (k >=? depth)%Z eqn:Ek.
    + apply (IH (inc, q) (done ++ [(u, k)])).
      * unfold bfsMeasure in *. simpl in *. lia.
      * simpl. now rewrite Same.
      * simpl. apply Inv_skip; [exact HI|lia].
      * simpl. destruct H2 as [A B]. unfold enqueued in *.
        constructor; unfold enqueued; rewrite Same; assumption.
    + destruct (visitEdges_spec u k es (inc, q)) as (news & E & Hnew & Hall).
      pose proof (proj2 (visitEdges_fst u k es (inc, q))) as ND.
      simpl in E. rewrite E in *. simpl in ND.
      assert (Hall' : (done ++ [(u, k)]) ++ q ++ map (fun w => (w, (k + 1)%Z)) news
                      = (done ++ (u, k) :: q) ++ map (fun w => (w, (k + 1)%Z)) news)
        by now rewrite <- !app_assoc.
      apply (IH _ (done ++ [(u, k)])).
      * pose proof (visitEdges_measure es es u k (inc, q) (incl_refl _)) as M.
        rewrite E in M. unfold bfsMeasure in *. simpl in *. lia.
      * simpl. rewrite Hall', map_app, map_fst_const. now rewrite Hinc.
      * simpl. apply Inv_expand; [exact HI|lia|exact Hnew|].
        intros w Hadj. apply Hall in Hadj. simpl in Hadj. now rewrite Hinc in Hadj.
      * simpl. destruct H2 as [A B]. unfold enqueued in *.
        constructor; unfold enqueued; rewrite Hall'.
        -- rewrite map_app, map_fst_const, <- Hinc. apply ND. now rewrite Hinc.
        -- intros w j Hin. rewrite length_app, length_map.
           apply in_app_iff in Hin as [Hin|Hin].
           ++ specialize (B w j Hin). lia.
           ++ apply in_map_iff in Hin as (w' & [= -> <-] & Hw').
              assert (Hu : (k < Z.of_nat (length (done ++ (u, k) :: q)))%Z).
              { apply (B u k). apply in_or_app. right. now left. }
              destruct news; [destruct Hw'|]. simpl length. lia.
Qed.

(** The final state of the traversal from the center. *)
Lemma bfs_final :
  (0 <= depth)%Z ->
  exists done, bfs depth es ([c], [(c, 0%Z)]) = map fst done
               /\ Inv es c depth done [] /\ Inv2 done [].
Proof.
  intros Hd.
  apply (bfs_Inv2 (S (bfsMeasure es ([c], [(c, 0%Z)]))) ([c], [(c, 0%Z)]) []).
  - lia.
  - reflexivity.
  - simpl. constructor; unfold enqueued; simpl.
    + now left.
    + intros x k [[= <- <-]|[]]. split; [lia|constructor].
    + repeat constructor.
    + intros m [= <-] x k [[= <- <-]|[]]. lia.
    + intros u k [].
  - simpl. constructor; unfold enqueued; simpl.
    + repeat constructor. intros [].
    + intros w k [[= <- <-]|[]]. lia.
Qed.

(** With a depth of at least the number of nodes the traversal includes
    every node that a walk from the center reaches. *)
Lemma bfs_component (ids : list jstring) (w : jstring) :
  (forall n x, walk es c n x -> In x ids) ->
  (Z.of_nat (length ids) <= depth)%Z ->
  In w (bfs depth es ([c], [(c, 0%Z)])) <-> exists n, walk es c n w.
Proof.
  intros Hids Hd.
  destruct bfs_final as (done & -> & [Hc Hw _ _ He] & [Hn Hb]); [lia|].
  unfold enqueued in *. rewrite app_nil_r in *.
  assert (Hlen : length done <= length ids).
  { rewrite <- (length_map fst done). apply NoDup_incl_length; [exact Hn|].
    intros x Hx. apply in_map_iff in Hx as ([x' k] & <- & Hin). simpl.
    eapply Hids, (proj2 (Hw x' k Hin)). }
  split.
  - intros H. apply in_map_iff in H as ([x k] & <- & Hin). simpl.
    exists (Z.to_nat k). apply (Hw x k Hin).
  - intros [n Hwalk].
    assert (G : exists k, In (w, k) done).
    { induction Hwalk as [|n u w Hwalk IH Hadj]; [now exists 0%Z|].
      destruct IH as (k & Hin). specialize (Hb u k Hin).
      destruct (He u k Hin ltac:(lia) w Hadj) as (kw & Hin' & _). now exists kw. }
    destruct G as (k & Hin). apply in_map_iff. now exists (w, k).
Qed.

(** For every depth, negative ones too, the traversal includes the
    nodes within [max depth 0] hops. *)
Lemma bfs_any_depth (w : jstring) :
  In w (bfs depth es ([c], [(c, 0%Z)])) <-> withinHops es c (Z.max depth 0) w.
Proof.
  destruct (Z.le_gt_cases 0 depth) as [H|H].
  - rewrite Z.max_l by lia. now apply bfs_withinHops.
  - rewrite Z.max_r by lia. rewrite bfs_no_hops by lia. split.
    + intros [<-|[]]. exists 0. split; [lia|constructor].
    + intros (n & Hn & Hw). destruct Hw; [now left|lia].
Qed.
End BfsMore.

(** ** the local graph as a graph *)

Lemma localGraph_unfold (v : Vault) (path : jstring) (depth : option Z)
    (center : GraphNode) :
  findCenter (getGraph v) (withMd path) = Some center ->
  let d := match depth with Some d => d | None => 1%Z end in
  let inc := bfs d (edges (getGraph v)) ([id center], [(id center, 0%Z)]) in
  getLocalGraph v path depth
  = {| nodes := filter (fun n => JsSet.has inc (id n)) (nodes (getGraph v));
       edges := filter (fun e => JsSet.has inc (from e) && JsSet.has inc (to e))
                       (edges (getGraph v)) |}.
Proof. intros H. unfold getLocalGraph. now rewrite H. Qed.

(** Dropping nodes keeps their identifiers pairwise different. *)
Lemma filter_ids_NoDup (keep : GraphNode -> bool) (ns : list GraphNode) :
  NoDup (map id ns) -> NoDup (map id (filter keep ns)).
Proof.
  intros H. induction ns as [|n ns IH]; [exact H|].
  cbn [map] in H. apply NoDup_cons_iff in H as [Hn Hns]. cbn [filter].
  destruct (keep n); [|exact (IH Hns)].
  cbn [map]. apply NoDup_cons; [|exact (IH Hns)].
  intros Hin. apply Hn. apply in_map_iff in Hin as (m & Hm & Hin).
  apply in_map_iff. exists m. split; [exact Hm|]. now apply filter_In in Hin.
Qed.

(** The center, when one is found, is a node of the local graph. *)
Lemma localGraph_has_center (v : Vault) (path : jstring) (depth : option Z)
    (center : GraphNode) :
  findCenter (getGraph v) (withMd path) = Some center ->
  In center (nodes (getLocalGraph v path depth)).
Proof.
  intros C. rewrite (localGraph_unfold v path depth center C). cbv zeta. cbn [nodes].
  apply filter_In. split; [eapply findCenter_In, C|]. apply has_In.
  set (d := match depth with Some d => d | None => 1%Z end).
  apply (bfs_incl (edges (getGraph v)) d
           (S (bfsMeasure (edges (getGraph v)) ([id center], [(id center, 0%Z)])))
           ([id center], [(id center, 0%Z)])); [lia|now left].
Qed.

(** Whatever the path and the depth, the local graph is a part of the
    full graph and a graph of its own: its nodes and edges are nodes and
    edges of the full graph, its nodes have pairwise different
    identifiers, both ends of each of its edges are among its nodes,
    and the center, when one is found, is among its nodes. *)
Theorem getLocalGraph_subgraph (v : Vault) (path : jstring) (depth : option Z) :
  let g := getGraph v in
  let local := getLocalGraph v path depth in
  incl (nodes local) (nodes g)
  /\ incl (edges local) (edges g)
  /\ NoDup (map id (nodes local))
  /\ Forall (fun e => In (from e) (map id (nodes local))
                      /\ In (to e) (map id (nodes local))) (edges local)
  /\ (forall center, findCenter g (withMd path) = Some center ->
        In center (nodes local)).
Proof.
  intros g local. subst local.
  destruct (findCenter g (withMd path)) as [center|] eqn:C.
  - pose proof (localGraph_has_center v path depth center C) as HC.
    rewrite (localGraph_unfold v path depth center C) in HC |- *.
    cbv zeta in HC |- *. fold g in HC |- *.
    set (d := match depth with Some d => d | None => 1%Z end).
    set (inc := bfs d (edges g) ([id center], [(id center, 0%Z)])).
    cbn [nodes edges]. split; [apply incl_filter|]. split; [apply incl_filter|].
    split; [apply filter_ids_NoDup, getGraph_ids_NoDup|]. split.
    + apply Forall_forall. intros e He. apply filter_In in He as [He Hb].
      apply andb_true_iff in Hb as [Hf Ht].
      pose proof (getGraph_edges_ends v) as F. fold g in F. rewrite Forall_forall in F.
      destruct (F e He) as (If & It & _).
      apply in_map_iff in If as (nf & Ef & If). apply in_map_iff in It as (nt & Et & It).
      split; apply in_map_iff; [exists nf|exists nt]; (split; [assumption|]);
        apply filter_In; (split; [assumption|]); congruence.
    + intros n [= <-]. exact HC.
  - unfold getLocalGraph. fold g. rewrite C. cbn [nodes edges].
    split; [intros x []|]. split; [intros x []|]. split; [constructor|].
    split; [constructor|]. discriminate.
Qed.

Lemma getLocalGraph_subgraph_witness :
  In {| id := str "B.md"; label := str "B"; links := 2; outlinks := 1; backlinks := 1 |}
     (nodes (getLocalGraph chainABC (str "b") (Some (-3)%Z))).
Proof.
  apply (proj2 (proj2 (proj2 (proj2
           (getLocalGraph_subgraph chainABC (str "b") (Some (-3)%Z)))))).
  vm_compute. reflexivity.
Defined.

Lemma findCenter_None (g : Graph) (np : jstring) :
  findCenter g np = None
  <-> forall n, In n (nodes g) ->
        endsWith (id n) np = false /\ toLowerCase (id n) <> toLowerCase np.
Proof.
  unfold findCenter, findFirst. split.
  - destruct (find _ (nodes g)) eqn:E1; [discriminate|]. intros E2 n Hn.
    apply (find_none _ _ E2) in Hn. apply orb_false_iff in Hn as [H1 H2].
    split; [exact H1|]. intros Heq. now rewrite Heq, streq_refl in H2.
  - intros H.
    assert (E1 : find (fun n => streq (id n) np) (nodes g) = None).
    { apply find_nothing. intros n Hn. destruct (streq (id n) np) eqn:E; [|reflexivity].
      apply streq_eq in E. destruct (H n Hn) as [He _]. rewrite E in He.
      change np with ([] ++ np) in He at 1. now rewrite endsWith_app in He. }
    rewrite E1. apply find_nothing. intros n Hn. destruct (H n Hn) as [He Hl].
    rewrite He. simpl. destruct (streq _ _) eqn:E; [|reflexivity].
    apply streq_eq in E. contradiction.
Qed.

(** For an ASCII path in a vault whose notes have ASCII names, the
    local graph is empty exactly when the path designates no node: no
    identifier ends with the normalized path and none equals it when
    case is ignored. *)
Theorem getLocalGraph_empty_iff (v : Vault) (path : jstring) (depth : option Z) :
  isAscii path = true -> Forall (fun p => isAscii p = true) (getAllNotes v) ->
  getLocalGraph v path depth = {| nodes := []; edges := [] |}
  <-> forall n, In n (nodes (getGraph v)) ->
        endsWith (id n) (withMd path) = false
        /\ toLowerCase (id n) <> toLowerCase (withMd path).
Proof.
  intros _ _. rewrite <- findCenter_None. split.
  - intros H. destruct (findCenter (getGraph v) (withMd path)) as [center|] eqn:C;
      [|reflexivity].
    pose proof (localGraph_has_center v path depth center C) as Hc.
    rewrite H in Hc. destruct Hc.
  - intros H. unfold getLocalGraph. now rewrite H.
Qed.

Lemma getLocalGraph_empty_iff_witness :
  getLocalGraph chainABC (str "Z") None = {| nodes := []; edges := [] |}.
Proof.
  apply (proj2 (getLocalGraph_empty_iff chainABC (str "Z") None eq_refl
                  ltac:(repeat constructor))).
  intros n Hn. vm_compute in Hn. decompose [or] Hn; subst; try contradiction;
    (split; [reflexivity|vm_compute; discriminate]).
Defined.

Lemma withinHops_mono (es : list GraphEdge) (c w : jstring) (d1 d2 : Z) :
  (d1 <= d2)%Z -> withinHops es c d1 w -> withinHops es c d2 w.
Proof. intros H (n & Hn & Hw). exists n. split; [lia|exact Hw]. Qed.

(** A larger depth gives a larger local graph. *)
Theorem getLocalGraph_monotone (v : Vault) (path : jstring) (d1 d2 : Z) :
  (d1 <= d2)%Z ->
  incl (nodes (getLocalGraph v path (Some d1))) (nodes (getLocalGraph v path (Some d2)))
  /\ incl (edges (getLocalGraph v path (Some d1))) (edges (getLocalGraph v path (Some d2))).
Proof.
  intros Hd. destruct (findCenter (getGraph v) (withMd path)) as [center|] eqn:C.
  - rewrite !(localGraph_unfold v path _ center C). cbv zeta. cbn [nodes edges].
    assert (M : forall w,
      JsSet.has (bfs d1 (edges (getGraph v)) ([id center], [(id center, 0%Z)])) w = true ->
      JsSet.has (bfs d2 (edges (getGraph v)) ([id center], [(id center, 0%Z)])) w = true).
    { intros w. rewrite !has_In, !bfs_any_depth. apply withinHops_mono. lia. }
    split; intros x Hx; apply filter_In in Hx as [Hx Hb]; apply filter_In;
      (split; [exact Hx|]).
    + now apply M.
    + apply andb_true_iff in Hb as [H1 H2]. apply andb_true_iff. split; now apply M.
  - unfold getLocalGraph. rewrite C. split; apply incl_refl.
Qed.

Lemma getLocalGraph_monotone_witness :
  incl (nodes (getLocalGraph chainABC (str "A") (Some 1%Z)))
       (nodes (getLocalGraph chainABC (str "A") (Some 2%Z))).
Proof.
  apply (proj1 (getLocalGraph_monotone chainABC (str "A") 1 2 ltac:(lia))).
Defined.

(** When the depth is at least the number of nodes, the local graph is
    the whole connected part of the center: its nodes are the nodes a
    walk from the center reaches, its edges are the edges that start at
    such a node. *)
Theorem getLocalGraph_component (v : Vault) (path : jstring) (d : Z)
    (center : GraphNode) :
  let g := getGraph v in
  let local := getLocalGraph v path (Some d) in
  (Z.of_nat (length (nodes g)) <= d)%Z ->
  findCenter g (withMd path) = Some center ->
  (forall w, In w (map id (nodes local)) <-> exists n, walk (edges g) (id center) n w)
  /\ (forall e, In e (edges local)
                <-> In e (edges g) /\ exists n, walk (edges g) (id center) n (from e)).
Proof.
  intros g local Hd C. subst local.
  rewrite (localGraph_unfold v path (Some d) center C). cbv zeta. fold g. cbn [nodes edges].
  assert (Hc : In (id center) (map id (nodes g)))
    by (apply in_map; eapply findCenter_In, C).
  assert (V : forall w, JsSet.has (bfs d (edges g) ([id center], [(id center, 0%Z)])) w = true
                        <-> exists n, walk (edges g) (id center) n w).
  { intros w. rewrite has_In. apply (bfs_component _ _ _ (map id (nodes g))).
    - intros n x Hw. now apply (walk_in_graph v (id center) x n).
    - now rewrite length_map. }
  split.
  - intros w. rewrite <- V. split.
    + intros H. apply in_map_iff in H as (n & <- & Hn). now apply filter_In in Hn.
    + intros H. apply V in H as H'. destruct H' as (k & Hw).
      apply (walk_in_graph v) in Hw; [|exact Hc]. fold g in Hw.
      apply in_map_iff in Hw as (n & <- & Hn). apply in_map, filter_In. now split.
  - intros e. rewrite filter_In, andb_true_iff, !V. split.
    + intros [He [Hf _]]. now split.
    + intros [He [n Hf]]. split; [exact He|]. split; [now exists n|].
      exists (S n). apply walk_step with (from e); [exact Hf|].
      exists e. split; [exact He|]. now left.
Qed.

Lemma getLocalGraph_component_witness :
  let center := {| id := str "A.md"; label := str "A"; links := 1;
                   outlinks := 1; backlinks := 0 |} in
  exists n, walk (edges (getGraph chainABC)) (id center) n (str "C.md").
Proof.
  intros center.
  assert (Hd : (Z.of_nat (length (nodes (getGraph chainABC))) <= 3)%Z)
    by (vm_compute; discriminate).
  assert (Hc : findCenter (getGraph chainABC) (withMd (str "A")) = Some center)
    by (vm_compute; reflexivity).
  refine (proj1 (proj1 (getLocalGraph_component chainABC (str "A") 3 center Hd Hc)
                   (str "C.md")) _).
  vm_compute. right. right. now left.
Defined.

(** ** writing a link and reading it back *)

(** A greedy run stops before a character it excludes, when what
    follows matches there. *)
Lemma starNot_greedy (A : Type) (ex : list ascii) (p : jstring) (c : ascii)
    (s : jstring) (k : jstring -> option A) (r : A) :
  Forall (fun x => chr_in x ex = false) p -> chr_in c ex = true ->
  k (c :: s) = Some r -> starNot ex (p ++ c :: s) k = Some r.
Proof.
  intros Hp Hc Hk. induction Hp as [|x p Hx Hp IH]; simpl.
  - now rewrite Hc.
  - now rewrite Hx, IH.
Qed.

(** A greedy run fails when what follows fails at its end and cannot
    start with a character of the run. *)
Lemma starNot_none (A : Type) (ex : list ascii) (p : jstring) (c : ascii)
    (s : jstring) (k : jstring -> option A) :
  Forall (fun x => chr_in x ex = false) p -> chr_in c ex = true ->
  (forall x s', chr_in x ex = false -> k (x :: s') = None) ->
  k (c :: s) = None -> starNot ex (p ++ c :: s) k = None.
Proof.
  intros Hp Hc Hrun Hk. induction Hp as [|x p Hx Hp IH]; simpl.
  - now rewrite Hc.
  - rewrite Hx, IH. now apply Hrun.
Qed.

Lemma execAll_skip (r : regex) (n : nat) (s : jstring) :
  length s <= n -> execAll r n s = [].
Proof.
  revert n. induction s as [|c s IH]; intros n H; [reflexivity|].
  simpl in H. destruct n as [|n]; [lia|]. simpl. apply IH. lia.
Qed.

(** A match at the head of a text that uses it up is the only match. *)
Lemma execAll_whole (r : regex) (s : jstring) (cs : captures) :
  s <> [] -> matchHere r s = Some (cs, []) -> execAll r 0 s = [cs].
Proof.
  intros Hs M. destruct s as [|c s]; [contradiction|]. cbn [execAll]. rewrite M.
  f_equal. apply execAll_skip. simpl. lia.
Qed.

Lemma wikilink_matchHere (name rest : jstring) :
  name <> [] -> Forall (fun c => chr_in c (str "]|#") = false) name ->
  matchHere WIKILINK_PATTERN (str "[[" ++ name ++ str "]]" ++ rest)
  = Some ([(1, name)], rest).
Proof.
  intros Hne F. destruct name as [|c name]; [contradiction|].
  inversion F as [|? ? Hc Hn]; subst.
  unfold matchHere, WIKILINK_PATTERN.
  cbn [str String.list_ascii_of_string lit app rmatch Ascii.eqb Bool.eqb] in *.
  rewrite Hc.
  erewrite starNot_greedy; [reflexivity|exact Hn|reflexivity|].
  cbn [rmatch Ascii.eqb Bool.eqb].
  change (c :: name ++ "]"%char :: "]"%char :: rest)
    with ((c :: name) ++ (str "]]" ++ rest)).
  change ("]"%char :: "]"%char :: rest) with (str "]]" ++ rest).
  now rewrite firstn_prefix.
Qed.

Lemma wikilink_alias_matchHere (name al rest : jstring) :
  name <> [] -> Forall (fun c => chr_in c (str "]|#") = false) name ->
  Forall (fun c => chr_in c (str "]") = false) al ->
  matchHere WIKILINK_PATTERN (str "[[" ++ name ++ str "|" ++ al ++ str "]]" ++ rest)
  = Some ([(2, al); (1, name)], rest).
Proof.
  intros Hne F Fa. destruct name as [|c name]; [contradiction|].
  inversion F as [|? ? Hc Hn]; subst.
  unfold matchHere, WIKILINK_PATTERN.
  cbn [str String.list_ascii_of_string lit app rmatch Ascii.eqb Bool.eqb] in *.
  rewrite Hc.
  erewrite starNot_greedy; [reflexivity|exact Hn|reflexivity|].
  cbn [rmatch Ascii.eqb Bool.eqb].
  erewrite starNot_greedy; [|exact Fa|reflexivity|].
  - reflexivity.
  - cbn [rmatch Ascii.eqb Bool.eqb].
    change (c :: name ++ "|"%char :: al ++ "]"%char :: "]"%char :: rest)
      with ((c :: name) ++ (str "|" ++ al ++ str "]]" ++ rest)).
    change ("|"%char :: al ++ "]"%char :: "]"%char :: rest)
      with (str "|" ++ al ++ str "]]" ++ rest).
    rewrite firstn_prefix.
    change (al ++ "]"%char :: "]"%char :: rest) with (al ++ (str "]]" ++ rest)).
    change ("]"%char :: "]"%char :: rest) with (str "]]" ++ rest).
    now rewrite firstn_prefix.
Qed.

(** A text that holds no closing bracket but for two at its end has no
    inline link. *)
Lemma markdown_none (p : jstring) :
  Forall (fun c => chr_in c (str "]") = false) p ->
  execAll MARKDOWN_LINK_PATTERN 0 (p ++ str "]]") = [].
Proof.
  intros F. induction F as [|x p Hx F IH]; [reflexivity|].
  cbn [app execAll]. rewrite IH.
  assert (M : matchHere MARKDOWN_LINK_PATTERN (x :: p ++ str "]]") = None).
  { unfold matchHere, MARKDOWN_LINK_PATTERN. cbn [rmatch].
    destruct (Ascii.eqb "[" x); [|reflexivity].
    apply starNot_none; [exact F|reflexivity| |reflexivity].
    intros y s' Hy. cbn [str String.list_ascii_of_string lit rmatch].
    unfold chr_in in Hy. simpl in Hy. apply orb_false_iff in Hy as [Hy _].
    rewrite Ascii.eqb_sym in Hy. now rewrite Hy. }
  now rewrite M.
Qed.

(** Reading back a bracket link, for a name and an alias of ASCII
    characters.  The text [[[name]]] gives one raw link: its target is
    the trimmed name, with [.md] appended when absent, and it has no
    alias.  The text [[[name|alias]]] gives the same target, and the
    trimmed alias when that is not empty. *)
Theorem wikilink_roundtrip (name al : jstring) :
  isAscii name = true -> isAscii al = true ->
  name <> [] -> Forall (fun c => chr_in c (str "]|#") = false) name ->
  Forall (fun c => chr_in c (str "]") = false) al ->
  extractLinks (str "[[" ++ name ++ str "]]")
  = [ {| target := withMd (trim name); alias := None |} ]
  /\ extractLinks (str "[[" ++ name ++ str "|" ++ al ++ str "]]")
     = [ {| target := withMd (trim name); alias := setIfTruthy (Some (trim al)) |} ].
Proof.
  intros _ _ Hne F Fa.
  assert (Fn : Forall (fun c => chr_in c (str "]") = false) name).
  { eapply Forall_impl; [|exact F]. intros c Hc. unfold chr_in in *. simpl in *.
    apply orb_false_iff in Hc as [Hc _]. now rewrite Hc. }
  assert (T : truthy name = true) by (now destruct name).
  split; unfold extractLinks.
  - replace (execAll MARKDOWN_LINK_PATTERN 0 (str "[[" ++ name ++ str "]]")) with (@nil captures).
    + pose proof (wikilink_matchHere name [] Hne F) as M. rewrite app_nil_r in M.
      erewrite execAll_whole; [|cbn; discriminate|exact M].
      cbn [flat_map wikilinkOf capture Nat.eqb option_map app]. now rewrite T.
    + symmetry. apply (markdown_none (str "[[" ++ name)).
      repeat constructor. exact Fn.
  - replace (execAll MARKDOWN_LINK_PATTERN 0 (str "[[" ++ name ++ str "|" ++ al ++ str "]]"))
      with (@nil captures).
    + pose proof (wikilink_alias_matchHere name al [] Hne F Fa) as M.
      rewrite app_nil_r in M.
      erewrite execAll_whole; [|cbn; discriminate|exact M].
      cbn [flat_map wikilinkOf capture Nat.eqb option_map app]. now rewrite T.
    + symmetry.
      pose proof (markdown_none (str "[[" ++ name ++ str "|" ++ al)) as N.
      rewrite <- !app_assoc in N. apply N.
      repeat constructor. apply Forall_app. split; [exact Fn|]. now constructor.
Qed.

Lemma wikilink_roundtrip_witness :
  extractLinks (str "[[" ++ str " My Note " ++ str "|" ++ str " shown " ++ str "]]")
  = [ {| target := str "My Note.md"; alias := Some (str "shown") |} ].
Proof.
  apply (proj2 (wikilink_roundtrip (str " My Note ") (str " shown ")
                  eq_refl eq_refl
                  ltac:(discriminate) ltac:(repeat constructor)
                  ltac:(repeat constructor))).
Defined.

Lemma starNot_prefix (A : Type) (ex : list ascii) (p t : jstring)
    (k : jstring -> option A) (r : A) :
  Forall (fun x => chr_in x ex = false) p ->
  starNot ex t k = Some r -> starNot ex (p ++ t) k = Some r.
Proof.
  intros Hp Hk. induction Hp as [|x p Hx Hp IH]; simpl; [exact Hk|].
  now rewrite Hx, IH.
Qed.

Lemma firstn_prefix2 (p q r : jstring) :
  firstn (length (p ++ q ++ r) - length r) (p ++ q ++ r) = p ++ q.
Proof. rewrite app_assoc. apply firstn_prefix. Qed.

Lemma chr_in_app (c : ascii) (a b : jstring) :
  chr_in c (a ++ b) = chr_in c a || chr_in c b.
Proof. apply existsb_app. Qed.

Lemma chr_in_Forall (c : ascii) (s : jstring) (ex : list ascii) :
  chr_in c ex = true -> Forall (fun x => chr_in x ex = false) s -> chr_in c s = false.
Proof.
  intros Hc F. induction F as [|x s Hx F IH]; [reflexivity|].
  unfold chr_in in *. simpl. rewrite IH, orb_false_r.
  destruct (Ascii.eqb c x) eqn:E; [|reflexivity].
  apply Ascii.eqb_eq in E. subst x. congruence.
Qed.

Lemma markdown_matchHere (txt path rest : jstring) :
  Forall (fun c => chr_in c (str "]") = false) txt ->
  path <> [] -> Forall (fun c => chr_in c (str ")") = false) path ->
  matchHere MARKDOWN_LINK_PATTERN (str "[" ++ txt ++ str "](" ++ path ++ str ".md)" ++ rest)
  = Some ([(2, path ++ md); (1, txt)], rest).
Proof.
  intros Ft Hne Fp. destruct path as [|c path]; [contradiction|].
  inversion Fp as [|? ? Hc Hp]; subst.
  unfold matchHere, MARKDOWN_LINK_PATTERN.
  cbn [str String.list_ascii_of_string lit app rmatch Ascii.eqb Bool.eqb] in *.
  erewrite starNot_greedy; [reflexivity|exact Ft|reflexivity|].
  cbn [rmatch Ascii.eqb Bool.eqb lit]. rewrite Hc.
  erewrite starNot_prefix; [reflexivity|exact Hp|].
  cbn [starNot chr_in existsb Ascii.eqb Bool.eqb orb rmatch lit].
  change (c :: path ++ "."%char :: "m"%char :: "d"%char :: ")"%char :: rest)
    with ((c :: path) ++ md ++ (")"%char :: rest)).
  rewrite firstn_prefix2.
  change (txt ++ "]"%char :: "("%char :: (c :: path) ++ md ++ ")"%char :: rest)
    with (txt ++ (str "](" ++ (c :: path) ++ md ++ ")"%char :: rest)).
  change ("]"%char :: "("%char :: (c :: path) ++ md ++ ")"%char :: rest)
    with (str "](" ++ (c :: path) ++ md ++ ")"%char :: rest).
  now rewrite firstn_prefix.
Qed.

(** Reading back an inline link, for a text and a path of ASCII
    characters.  The text [[text](path.md)] gives one raw link: its
    target is the trimmed path, [.md] included, without a leading [./],
    and its alias is the trimmed text when that is not empty. *)
Theorem markdown_roundtrip (txt path : jstring) :
  isAscii txt = true -> isAscii path = true ->
  Forall (fun c => chr_in c (str "[]") = false) txt ->
  path <> [] -> Forall (fun c => chr_in c (str "[)") = false) path ->
  extractLinks (str "[" ++ txt ++ str "](" ++ path ++ str ".md)")
  = [ {| target := (let t := trim (path ++ md) in
                    if startsWith t (str "./") then sliceFrom 2 t else t);
         alias := setIfTruthy (Some (trim txt)) |} ].
Proof.
  intros _ _ Ft Hne Fp.
  assert (Ft1 : Forall (fun c => chr_in c (str "]") = false) txt).
  { eapply Forall_impl; [|exact Ft]. intros c Hc. unfold chr_in in *. simpl in *.
    apply orb_false_iff in Hc as [_ Hc]. exact Hc. }
  assert (Ft2 : Forall (fun c => chr_in c (str "[") = false) txt).
  { eapply Forall_impl; [|exact Ft]. intros c Hc. unfold chr_in in *. simpl in *.
    apply orb_false_iff in Hc as [Hc _]. now rewrite Hc. }
  assert (Fp1 : Forall (fun c => chr_in c (str ")") = false) path).
  { eapply Forall_impl; [|exact Fp]. intros c Hc. unfold chr_in in *. simpl in *.
    apply orb_false_iff in Hc as [_ Hc]. exact Hc. }
  assert (Fp2 : Forall (fun c => chr_in c (str "[") = false) path).
  { eapply Forall_impl; [|exact Fp]. intros c Hc. unfold chr_in in *. simpl in *.
    apply orb_false_iff in Hc as [Hc _]. now rewrite Hc. }
  set (tail := txt ++ str "](" ++ path ++ str ".md)").
  assert (Htail : chr_in "["%char tail = false).
  { subst tail. rewrite !chr_in_app.
    rewrite (chr_in_Forall "["%char txt (str "[") eq_refl Ft2).
    rewrite (chr_in_Forall "["%char path (str "[") eq_refl Fp2).
    reflexivity. }
  assert (W : execAll WIKILINK_PATTERN 0 (str "[" ++ tail) = []).
  { cbn [str String.list_ascii_of_string app execAll].
    assert (M : matchHere WIKILINK_PATTERN ("["%char :: tail) = None).
    { unfold matchHere, WIKILINK_PATTERN.
      cbn [str String.list_ascii_of_string lit rmatch Ascii.eqb Bool.eqb].
      destruct tail as [|x tail']; [reflexivity|].
      unfold chr_in in Htail. simpl in Htail. apply orb_false_iff in Htail as [Hx _].
      now rewrite Hx. }
    rewrite M.
    change WIKILINK_PATTERN with
      (RSeq (RChar "["%char) (lit (str "[") (RSeq (RCap 1 (RPlusNot (str "]|#")))
        (RSeq (ROpt (RSeq (RChar "#") (RStarNot (str "]|"))))
        (RSeq (ROpt (RSeq (RChar "|") (RCap 2 (RStarNot (str "]")))))
        (RSeq (RChar "]") (RChar "]"))))))).
    now apply execAll_first_char. }
  unfold extractLinks. fold tail. rewrite W.
  pose proof (markdown_matchHere txt path [] Ft1 Hne Fp1) as M.
  rewrite !app_nil_r in M. fold tail in M.
  erewrite execAll_whole; [|cbn; discriminate|exact M].
  cbn [flat_map app markdownLinkOf capture Nat.eqb option_map].
  destruct (path ++ md) eqn:E; [now destruct path|]. reflexivity.
Qed.

Lemma markdown_roundtrip_witness :
  extractLinks (str "[" ++ str "see" ++ str "](" ++ str "./notes/a" ++ str ".md)")
  = [ {| target := str "notes/a.md"; alias := Some (str "see") |} ].
Proof.
  apply (markdown_roundtrip (str "see") (str "./notes/a")).
  - reflexivity.
  - reflexivity.
  - repeat constructor.
  - discriminate.
  - repeat constructor.
Defined.

(** ** the order of the edges *)

(** The edges of a built graph are the edges of the listed notes, note
    after note in the order of the listing and, within a note, in the
    order of its raw links; a note that cannot be read gives none. *)
Theorem getGraph_edges_in_order (v : Vault) :
  edges (getGraph v)
  = flat_map
      (fun notePath =>
         match readFile v notePath with
         | Some content =>
             flat_map (edgeOf (JsSet.ofList (getAllNotes v)) notePath (sourceDirOf notePath))
                      (extractLinks content)
         | None => []
         end)
      (getAllNotes v).
Proof.
  rewrite getGraph_spec. cbn [edges]. unfold allEdges.
  apply flat_map_ext. intros p. unfold processNote. now destruct (readFile v p).
Qed.

(** ** links resolve in the directory of the note first *)

Lemma includesSlash_app (a b : jstring) :
  includesSlash (a ++ b) = includesSlash a || includesSlash b.
Proof. apply existsb_app. Qed.

Lemma lastIndexOfSlash_app (dir name : jstring) :
  includesSlash name = false ->
  lastIndexOfSlash (dir ++ slash :: name) = length dir.
Proof.
  intros Hn. induction dir as [|c dir IH]; simpl.
  - now rewrite Hn.
  - rewrite includesSlash_app. unfold includesSlash at 2, chr_in. simpl.
    rewrite orb_true_r. now rewrite IH.
Qed.

(** The source directory of the note [dir/name] is [dir]; that of a note
    of the top directory is empty. *)
Lemma sourceDirOf_spec (dir name : jstring) :
  includesSlash name = false ->
  sourceDirOf (dir ++ str "/" ++ name) = dir /\ sourceDirOf name = [].
Proof.
  intros Hn. unfold sourceDirOf. rewrite Hn. split; [|reflexivity].
  rewrite includesSlash_app. unfold includesSlash at 2, chr_in. simpl.
  rewrite orb_true_r. change ("/"%char :: name) with (slash :: name).
  rewrite lastIndexOfSlash_app by exact Hn. unfold slice.
  rewrite Nat.sub_0_r. simpl skipn.
  rewrite firstn_app, firstn_all, Nat.sub_diag. simpl. apply app_nil_r.
Qed.

(** A link in the note [dir/name], when its target is not itself a known
    identifier, resolves to the note of that name in [dir] if there is
    one, whatever other notes have the same file name. *)
Theorem same_directory_first (S : JsSet.t) (dir name t : jstring) :
  includesSlash name = false -> dir <> [] ->
  ~ In (withMd t) S -> In (dir ++ str "/" ++ withMd t) S ->
  resolveLink t S (sourceDirOf (dir ++ str "/" ++ name))
  = Some (dir ++ str "/" ++ withMd t).
Proof.
  intros Hn Hd Hx Hin. rewrite (proj1 (sourceDirOf_spec dir name Hn)).
  unfold resolveLink. apply has_false in Hx. rewrite Hx.
  apply has_In in Hin. rewrite Hin. now destruct dir.
Qed.

Lemma same_directory_first_witness :
  resolveLink (str "x") [str "b/x.md"; str "a/x.md"]
              (sourceDirOf (str "a" ++ str "/" ++ str "note.md"))
  = Some (str "a" ++ str "/" ++ withMd (str "x")).
Proof.
  apply same_directory_first.
  - reflexivity.
  - discriminate.
  - simpl. intuition discriminate.
  - right. now left.
Defined.
